(** * Wave Function Collapse component: a shallow embedding and its properties

    The development follows [WaveFunctionCollapseComponent.h] and
    [WaveFunctionCollapseComponent.cpp].  The component's fields are the
    configuration ([GridWidth], [GridHeight], [TileTypes], [CompatibleEdges])
    and the private [Grid]; member functions become functions over these,
    the grid being passed and returned explicitly.  [int32] values are
    integers in [Z], [TArray] is a list indexed through a checked accessor,
    [TMap] is a finite map. *)

From Stdlib Require Import ZArith Lia.
From stdpp Require Import base tactics option list gmap.

Local Open Scope Z_scope.

(** ** Machine integers *)

Definition INT32_MAX : Z := 2147483647.

(** Two's complement reduction of an integer to the [int32] range. *)
Definition wrap32 (z : Z) : Z := (z + 2147483648) `mod` 4294967296 - 2147483648.

(** ** Outcomes of a member function

    [Ret] is a normal return.  [Crash] stands for a failed engine check
    ([TArray::operator[]] out of range, [SetNum] with a negative count) or a
    division by zero.  [OutOfFuel] is not a behaviour of the program: the
    [while] loops are modelled with a step budget, and [OutOfFuel] says that
    the budget was too small. *)

Inductive outcome (A : Type) : Type :=
| Ret (a : A)
| Crash
| OutOfFuel.
Arguments Ret {A} a.
Arguments Crash {A}.
Arguments OutOfFuel {A}.

Definition outcome_bind {A B : Type} (f : A → outcome B) (m : outcome A) : outcome B :=
  match m with
  | Ret a => f a
  | Crash => Crash
  | OutOfFuel => OutOfFuel
  end.

#[global] Instance outcome_mbind : MBind outcome := @outcome_bind.
#[global] Instance outcome_mret : MRet outcome := @Ret.

(** ** Engine containers *)

(** [TArray::Num]. *)
Definition Num {A : Type} (l : list A) : Z := Z.of_nat (length l).

(** [TArray::operator[]]: the engine checks the index. *)
Definition at_index {A : Type} (l : list A) (i : Z) : outcome A :=
  if bool_decide (0 ≤ i < Num l) then
    match l !! Z.to_nat i with
    | Some a => Ret a
    | None => Crash
    end
  else Crash.

(** [TArray::AddUnique]: appends unless the element is already there. *)
Definition AddUnique (l : list Z) (x : Z) : list Z :=
  if bool_decide (x ∈ l) then l else l ++ [x].

(** ** The header's types *)

Inductive ETileEdgeType : Type := Type_A | Type_B | Type_C | Type_D.

#[global] Instance ETileEdgeType_eq_dec : EqDecision ETileEdgeType.
Proof. solve_decision. Defined.

Definition edge_code (e : ETileEdgeType) : nat :=
  match e with Type_A => 0 | Type_B => 1 | Type_C => 2 | Type_D => 3 end%nat.

Definition edge_of_code (n : nat) : option ETileEdgeType :=
  match n with
  | 0 => Some Type_A | 1 => Some Type_B | 2 => Some Type_C | 3 => Some Type_D
  | _ => None
  end%nat.

#[global] Instance ETileEdgeType_countable : Countable ETileEdgeType.
Proof.
  refine (inj_countable edge_code edge_of_code _).
  intros e. destruct e; reflexivity.
Defined.

(** [FTileType]; the mesh is an opaque asset handle, [None] for [nullptr]. *)
Record FTileType : Type := mkTile {
  Mesh : option nat;
  NorthEdge : ETileEdgeType;
  EastEdge : ETileEdgeType;
  SouthEdge : ETileEdgeType;
  WestEdge : ETileEdgeType
}.

Record FCell : Type := mkCell {
  PossibleStates : list Z;
  bIsCollapsed : bool;
  FinalState : Z
}.

(** [FCell::FCell()]. *)
Definition FCell_default : FCell :=
  {| PossibleStates := []; bIsCollapsed := false; FinalState := -1 |}.

(** The editor-exposed fields of the component. *)
Record Config : Type := mkConfig {
  GridWidth : Z;
  GridHeight : Z;
  TileTypes : list FTileType;
  CompatibleEdges : gmap ETileEdgeType ETileEdgeType
}.

(** The table the constructor installs: every label pairs with itself. *)
Definition DefaultCompatibleEdges : gmap ETileEdgeType ETileEdgeType :=
  <[Type_D := Type_D]> (<[Type_C := Type_C]> (<[Type_B := Type_B]>
    (<[Type_A := Type_A]> ∅))).

(** ** FindCellWithLowestEntropy *)

(** The body of the scan loop at index [i]; the accumulator is
    [(LowestEntropyIndex, LowestEntropy)]. *)
Definition entropy_step (acc : Z * Z) (i : Z) (Cell : FCell) : Z * Z :=
  if negb (bIsCollapsed Cell) && (0 <? Num (PossibleStates Cell)) then
    if Num (PossibleStates Cell) <? acc.2 then (i, Num (PossibleStates Cell))
    else acc
  else acc.

Fixpoint entropy_scan (i : Z) (cells : list FCell) (acc : Z * Z) : Z * Z :=
  match cells with
  | [] => acc
  | Cell :: rest => entropy_scan (i + 1) rest (entropy_step acc i Cell)
  end.

Definition FindCellWithLowestEntropy (Grid : list FCell) : Z :=
  (entropy_scan 0 Grid (-1, INT32_MAX)).1.

(** A cell the scan considers: not collapsed, at least one candidate. *)
Definition eligible (Cell : FCell) : Prop :=
  bIsCollapsed Cell = false ∧ 0 < Num (PossibleStates Cell).

(** ** Randomness

    [CollapseCell] draws from [FMath::RandRange], the engine's process-wide
    generator.  The generator is not part of the repository: its state is a
    type [R] threaded through the calls, and [RandRange rng Min Max] gives
    the number drawn and the state left behind. *)

Class RandomSource (R : Type) : Type :=
  RandRange : R → Z → Z → Z * R.

(** The engine's contract: the draw lies between the two bounds. *)
Definition RandRange_in_range (R : Type) `{RandomSource R} : Prop :=
  ∀ (rng : R) (Min Max : Z), Min ≤ Max →
    Min ≤ (RandRange rng Min Max).1 ≤ Max.

(** ** CollapseCell *)

Definition collapsed_to (ChosenState : Z) : FCell :=
  {| PossibleStates := [ChosenState]; bIsCollapsed := true; FinalState := ChosenState |}.

Definition CollapseCell {R : Type} `{RandomSource R}
    (Grid : list FCell) (rng : R) (CellIndex : Z) : outcome (list FCell * R) :=
  if (CellIndex <? 0) || (Num Grid <=? CellIndex) then Ret (Grid, rng)
  else
    Cell ← at_index Grid CellIndex;
    if bIsCollapsed Cell || (Num (PossibleStates Cell) =? 0) then Ret (Grid, rng)
    else
      let '(RandomIndex, rng') := RandRange rng 0 (Num (PossibleStates Cell) - 1) in
      ChosenState ← at_index (PossibleStates Cell) RandomIndex;
      Ret (<[Z.to_nat CellIndex := collapsed_to ChosenState]> Grid, rng').

(** ** UpdateCellPossibilities *)

(** The candidates kept by the filter loop. *)
Definition filter_allowed (AllowedStates States : list Z) : list Z :=
  filter (λ State, State ∈ AllowedStates) States.

(** The cell after the update, given the filtered list. *)
Definition narrowed (Cell : FCell) (NewPossibleStates : list Z) : FCell :=
  if 0 <? Num NewPossibleStates then
    if Num NewPossibleStates =? 1 then
      {| PossibleStates := NewPossibleStates;
         bIsCollapsed := true;
         FinalState := default (FinalState Cell) (NewPossibleStates !! 0%nat) |}
    else
      {| PossibleStates := NewPossibleStates;
         bIsCollapsed := bIsCollapsed Cell;
         FinalState := FinalState Cell |}
  else Cell.

Definition UpdateCellPossibilities
    (Grid : list FCell) (CellIndex : Z) (AllowedStates : list Z) : list FCell * bool :=
  if (CellIndex <? 0) || (Num Grid <=? CellIndex) then (Grid, false)
  else
    match Grid !! Z.to_nat CellIndex with
    | None => (Grid, false)
    | Some Cell =>
        if bIsCollapsed Cell then (Grid, false)
        else
          let PreviousCount := Num (PossibleStates Cell) in
          let Cell' := narrowed Cell (filter_allowed AllowedStates (PossibleStates Cell)) in
          (<[Z.to_nat CellIndex := Cell']> Grid,
           negb (PreviousCount =? Num (PossibleStates Cell')))
    end.

(** ** Edge compatibility *)

Inductive Direction : Type := North | East | South | West.

#[global] Instance Direction_eq_dec : EqDecision Direction.
Proof. solve_decision. Defined.

Definition edge (d : Direction) (Tile : FTileType) : ETileEdgeType :=
  match d with
  | North => NorthEdge Tile
  | East => EastEdge Tile
  | South => SouthEdge Tile
  | West => WestEdge Tile
  end.

Definition opposite (d : Direction) : Direction :=
  match d with North => South | East => West | South => North | West => East end.

Section Component.
Variable cfg : Config.

Definition AreEdgesCompatible (Edge1 Edge2 : ETileEdgeType) : bool :=
  match CompatibleEdges cfg !! Edge1 with
  | Some CompatibleEdge => bool_decide (CompatibleEdge = Edge2)
  | None => false
  end.

(** *** PropagateConstraints *)

(** The inner loop over the catalog: every tile whose edge facing back
    ([opposite d]) is compatible with [CurrentEdge] is added once. *)
Fixpoint add_compatible (d : Direction) (CurrentEdge : ETileEdgeType)
    (i : Z) (tiles : list FTileType) (Allowed : list Z) : list Z :=
  match tiles with
  | [] => Allowed
  | Tile :: rest =>
      add_compatible d CurrentEdge (i + 1) rest
        (if AreEdgesCompatible CurrentEdge (edge (opposite d) Tile)
         then AddUnique Allowed i else Allowed)
  end.

(** The outer loop over the current cell's candidates. *)
Fixpoint allowed_states (d : Direction) (States : list Z) (Allowed : list Z)
    : outcome (list Z) :=
  match States with
  | [] => Ret Allowed
  | StateIndex :: rest =>
      Tile ← at_index (TileTypes cfg) StateIndex;
      allowed_states d rest
        (add_compatible d (edge d Tile) 0 (TileTypes cfg) Allowed)
  end.

Definition IndexToXY (Index : Z) : outcome (Z * Z) :=
  if GridWidth cfg =? 0 then Crash
  else Ret (Z.rem Index (GridWidth cfg), Z.quot Index (GridWidth cfg)).

Definition XYToIndex (X Y : Z) : Z :=
  wrap32 (wrap32 (Y * GridWidth cfg) + X).

(** The guard of each of the four blocks. *)
Definition has_neighbor (d : Direction) (X Y : Z) : bool :=
  match d with
  | North => 0 <? Y
  | East => X <? wrap32 (GridWidth cfg - 1)
  | South => Y <? wrap32 (GridHeight cfg - 1)
  | West => 0 <? X
  end.

Definition neighbor_index (d : Direction) (X Y : Z) : Z :=
  match d with
  | North => XYToIndex X (wrap32 (Y - 1))
  | East => XYToIndex (wrap32 (X + 1)) Y
  | South => XYToIndex X (wrap32 (Y + 1))
  | West => XYToIndex (wrap32 (X - 1)) Y
  end.

(** One of the four blocks.  [CurrentCell] is a reference into the grid,
    so its candidates are read from the grid as it is when the block runs. *)
Definition process_neighbor (d : Direction) (CurrentCellIndex X Y : Z)
    (st : list FCell * list Z) : outcome (list FCell * list Z) :=
  if has_neighbor d X Y then
    CurrentCell ← at_index st.1 CurrentCellIndex;
    Allowed ← allowed_states d (PossibleStates CurrentCell) [];
    let upd := UpdateCellPossibilities st.1 (neighbor_index d X Y) Allowed in
    Ret (upd.1, if upd.2 then AddUnique st.2 (neighbor_index d X Y) else st.2)
  else Ret st.

(** The body of the [while] loop, after the head of the queue is removed. *)
Definition propagate_step (CurrentCellIndex : Z) (st : list FCell * list Z)
    : outcome (list FCell * list Z) :=
  XY ← IndexToXY CurrentCellIndex;
  _ ← at_index st.1 CurrentCellIndex;
  st1 ← process_neighbor North CurrentCellIndex XY.1 XY.2 st;
  st2 ← process_neighbor East CurrentCellIndex XY.1 XY.2 st1;
  st3 ← process_neighbor South CurrentCellIndex XY.1 XY.2 st2;
  process_neighbor West CurrentCellIndex XY.1 XY.2 st3.

Fixpoint propagate_loop (fuel : nat) (Grid : list FCell) (PropagationQueue : list Z)
    : outcome (list FCell) :=
  match PropagationQueue with
  | [] => Ret Grid
  | CurrentCellIndex :: Queue =>
      match fuel with
      | O => OutOfFuel
      | S fuel' =>
          st ← propagate_step CurrentCellIndex (Grid, Queue);
          propagate_loop fuel' st.1 st.2
      end
  end.

Definition PropagateConstraints (fuel : nat) (Grid : list FCell) (CellIndex : Z)
    : outcome (list FCell) :=
  if (CellIndex <? 0) || (Num Grid <=? CellIndex) then Ret Grid
  else propagate_loop fuel Grid [CellIndex].

(** Several calls in a row, as the solve loop makes them. *)
Fixpoint propagate_all (fuel : nat) (Grid : list FCell) (origins : list Z)
    : outcome (list FCell) :=
  match origins with
  | [] => Ret Grid
  | CellIndex :: rest =>
      Grid' ← PropagateConstraints fuel Grid CellIndex;
      propagate_all fuel Grid' rest
  end.

End Component.

(** ** ValidateEdgeRules *)

(** The lines the component writes with [UE_LOG]. *)
Inductive LogLine : Type :=
| NoTileTypes
| NoCompatibilityRule (Tile : Z) (d : Direction)
| NotSymmetric (Edge1 Edge2 : ETileEdgeType) (Reverse : option ETileEdgeType)
| InvalidRules
| MaxIterationsReached (MaxIterations : Z).

#[global] Instance LogLine_eq_dec : EqDecision LogLine.
Proof. solve_decision. Defined.

Section Validation.
Variable cfg : Config.

(** The checks share the state [(bRulesAreValid, lines logged so far)]. *)
Definition check_edge (i : Z) (Tile : FTileType) (d : Direction)
    (st : bool * list LogLine) : bool * list LogLine :=
  match CompatibleEdges cfg !! edge d Tile with
  | Some _ => st
  | None => (false, st.2 ++ [NoCompatibilityRule i d])
  end.

Definition check_tile (i : Z) (Tile : FTileType) (st : bool * list LogLine)
    : bool * list LogLine :=
  check_edge i Tile West
    (check_edge i Tile South
      (check_edge i Tile East
        (check_edge i Tile North st))).

Fixpoint check_tiles (i : Z) (tiles : list FTileType) (st : bool * list LogLine)
    : bool * list LogLine :=
  match tiles with
  | [] => st
  | Tile :: rest => check_tiles (i + 1) rest (check_tile i Tile st)
  end.

Definition check_pair (st : bool * list LogLine)
    (Pair : ETileEdgeType * ETileEdgeType) : bool * list LogLine :=
  let ReverseCompatible := CompatibleEdges cfg !! Pair.2 in
  if bool_decide (ReverseCompatible = Some Pair.1) then st
  else (false, st.2 ++ [NotSymmetric Pair.1 Pair.2 ReverseCompatible]).

(** Returns [bRulesAreValid] and the warnings logged.  The entries of the
    table are visited in the order of [map_to_list]; the order in which
    the engine's [TMap] yields them only permutes the symmetry warnings. *)
Definition ValidateEdgeRules : bool * list LogLine :=
  if Num (TileTypes cfg) =? 0 then (false, [NoTileTypes])
  else
    foldl check_pair
      (check_tiles 0 (TileTypes cfg) (true, []))
      (map_to_list (CompatibleEdges cfg)).

End Validation.

(** ** GenerateGrid *)

Fixpoint IsGridFullyCollapsed (Grid : list FCell) : bool :=
  match Grid with
  | [] => true
  | Cell :: rest => if negb (bIsCollapsed Cell) then false else IsGridFullyCollapsed rest
  end.

(** [TArray::SetNum] on an emptied array: [NewNum] default cells. *)
Definition SetNum (NewNum : Z) : outcome (list FCell) :=
  if NewNum <? 0 then Crash else Ret (replicate (Z.to_nat NewNum) FCell_default).

(** The states added by [for (i = 0; i < TileTypes.Num(); ++i)]. *)
Definition all_states (n : nat) : list Z := Z.of_nat <$> seq 0 n.

(** What the component holds besides its configuration: the grid, the
    state of the engine's generator, and the log written so far. *)
Record World (R : Type) : Type := mkWorld {
  Grid : list FCell;
  Rand : R;
  Log : list LogLine
}.
Arguments mkWorld {R} _ _ _.
Arguments Grid {R} _.
Arguments Rand {R} _.
Arguments Log {R} _.

Section Generation.
Context {R : Type} `{RandomSource R}.
Variable cfg : Config.

Definition init_cell (Cell : FCell) : FCell :=
  {| PossibleStates := all_states (length (TileTypes cfg));
     bIsCollapsed := false;
     FinalState := FinalState Cell |}.

(** [Grid.Empty(); Grid.SetNum(GridWidth * GridHeight);] and the loop
    that fills every cell. *)
Definition InitGrid : outcome (list FCell) :=
  SetNum (wrap32 (GridWidth cfg * GridHeight cfg))
    ≫= λ cells : list FCell, Ret (init_cell <$> cells).

Definition MaxIterations : Z :=
  wrap32 (wrap32 (GridWidth cfg * GridHeight cfg) * 10).

(** The [while] loop; the state is the grid, the generator and
    [IterationCount].  One unit of [fuel] is spent per iteration, and the
    propagation inside an iteration receives the same budget. *)
Fixpoint solve_loop (fuel : nat) (Grid : list FCell) (rng : R) (IterationCount : Z)
    : outcome (list FCell * R * Z) :=
  if negb (IsGridFullyCollapsed Grid) && (IterationCount <? MaxIterations) then
    match fuel with
    | O => OutOfFuel
    | S fuel' =>
        let CellToCollapse := FindCellWithLowestEntropy Grid in
        if CellToCollapse =? -1 then Ret (Grid, rng, IterationCount)
        else
          collapsed ← CollapseCell Grid rng CellToCollapse;
          Grid' ← PropagateConstraints cfg (S fuel') collapsed.1 CellToCollapse;
          solve_loop fuel' Grid' collapsed.2 (wrap32 (IterationCount + 1))
    end
  else Ret (Grid, rng, IterationCount).

(** [GenerateGrid], up to the call of [SpawnTileMeshes], which reads the
    grid and does not change it.  Besides the new state the result gives
    the final [IterationCount] (0 when the loop is not reached). *)
Definition GenerateGrid (fuel : nat) (w : World R) : outcome (World R * Z) :=
  let validation := ValidateEdgeRules cfg in
  if negb validation.1 then
    Ret ({| Grid := Grid w; Rand := Rand w;
            Log := Log w ++ validation.2 ++ [InvalidRules] |}, 0)
  else
    Grid0 ← InitGrid;
    solved ← solve_loop fuel Grid0 (Rand w) 0;
    Ret ({| Grid := solved.1.1; Rand := solved.1.2;
            Log := Log w ++ validation.2 ++
                   (if MaxIterations <=? solved.2
                    then [MaxIterationsReached MaxIterations] else []) |},
         solved.2).

(** [BeginPlay]: validation for its log, then generation. *)
Definition BeginPlay (fuel : nat) (w : World R) : outcome (World R * Z) :=
  GenerateGrid fuel
    {| Grid := Grid w; Rand := Rand w; Log := Log w ++ (ValidateEdgeRules cfg).2 |}.

End Generation.

(** ** Predicates used in the statements *)

(** [New] is what a cell may become from [Old] during propagation: its
    candidates are taken from those of [Old], in the same order, and a
    collapsed cell does not change at all. *)
Definition cell_shrinks (Old New : FCell) : Prop :=
  PossibleStates New `sublist_of` PossibleStates Old ∧
  (bIsCollapsed Old = true → New = Old).

Definition grid_shrinks (Old New : list FCell) : Prop :=
  Forall2 cell_shrinks Old New.

(** The same, cell by cell, in the words of the statement: the grid keeps
    its length, no cell gains a candidate, a collapsed cell stays as it is. *)
Definition only_shrunk (Old New : list FCell) : Prop :=
  length New = length Old ∧
  ∀ (i : nat) (Cell Cell' : FCell),
    Old !! i = Some Cell → New !! i = Some Cell' →
    PossibleStates Cell' ⊆ PossibleStates Cell ∧
    Num (PossibleStates Cell') ≤ Num (PossibleStates Cell) ∧
    (bIsCollapsed Cell = true → Cell' = Cell).

(** The cell invariant for a catalog of [tileCount] tiles. *)
Definition cell_ok (tileCount : Z) (Cell : FCell) : Prop :=
  (∀ State, State ∈ PossibleStates Cell → 0 ≤ State < tileCount) ∧
  (bIsCollapsed Cell = true →
     PossibleStates Cell = [FinalState Cell] ∧ 0 ≤ FinalState Cell < tileCount).

Definition grid_ok (tileCount : Z) (Grid : list FCell) : Prop :=
  Forall (cell_ok tileCount) Grid.

(** The number of candidates left in the whole grid. *)
Fixpoint total_candidates (Grid : list FCell) : nat :=
  match Grid with
  | [] => 0
  | Cell :: rest => length (PossibleStates Cell) + total_candidates rest
  end%nat.

(** A tile edge label without an entry in the table. *)
Definition missing_rule (cfg : Config) (i : nat) (d : Direction) : Prop :=
  ∃ Tile, TileTypes cfg !! i = Some Tile ∧ CompatibleEdges cfg !! edge d Tile = None.

(** An entry of the table whose value does not map back to its key. *)
Definition asymmetric_pair (cfg : Config) (Edge1 Edge2 : ETileEdgeType) : Prop :=
  CompatibleEdges cfg !! Edge1 = Some Edge2 ∧ CompatibleEdges cfg !! Edge2 ≠ Some Edge1.

(** Every defect of the configuration has its line in the validation log. *)
Definition reports_all_defects (cfg : Config) : Prop :=
  (TileTypes cfg = [] → NoTileTypes ∈ (ValidateEdgeRules cfg).2) ∧
  (∀ i d, missing_rule cfg i d →
     NoCompatibilityRule (Z.of_nat i) d ∈ (ValidateEdgeRules cfg).2) ∧
  (∀ Edge1 Edge2, asymmetric_pair cfg Edge1 Edge2 →
     NotSymmetric Edge1 Edge2 (CompatibleEdges cfg !! Edge2) ∈ (ValidateEdgeRules cfg).2).

(** Every queued index addresses a cell of the grid. *)
Definition queue_ok (Grid : list FCell) (Queue : list Z) : Prop :=
  Forall (λ i, 0 ≤ i < Num Grid) Queue.

(** The cell invariant together with the bounds on the number of candidates
    that hold during a run. *)
Definition cell_live (tileCount : Z) (Cell : FCell) : Prop :=
  cell_ok tileCount Cell ∧ 0 < Num (PossibleStates Cell) ≤ tileCount.

Definition grid_live (tileCount : Z) (Grid : list FCell) : Prop :=
  Forall (cell_live tileCount) Grid.

(** ** Sample configurations

    Used to instantiate the statements below. *)

(** A generator whose state counts the draws made so far. *)
#[global] Instance counter_random : RandomSource Z :=
  λ rng Min Max, (Min + rng `mod` (Max - Min + 1), rng + 1).

Definition tile_A : FTileType := mkTile None Type_A Type_A Type_A Type_A.
Definition tile_B : FTileType := mkTile None Type_B Type_B Type_B Type_B.

(** [Type_A] pairs with [Type_B] and back. *)
Definition cross_edges : gmap ETileEdgeType ETileEdgeType :=
  <[Type_A := Type_B]> (<[Type_B := Type_A]> ∅).

(** A 2x2 grid that can only be tiled as a checkerboard. *)
Definition checkerboard : Config := mkConfig 2 2 [tile_A; tile_B] cross_edges.

Definition fresh_world (seed : Z) : World Z := mkWorld [] seed [].

(** No tile at all, and a table with a one-way entry. *)
Definition empty_one_way : Config :=
  mkConfig 2 2 [] (<[Type_A := Type_B]> ∅).

(** One tile whose edges have no rule, and a one-way entry for another label. *)
Definition unruled_one_way : Config :=
  mkConfig 2 2 [tile_A] (<[Type_C := Type_D]> ∅).

(** A cell that may still become either tile of [checkerboard]. *)
Definition open_cell : FCell := mkCell [0; 1] false (-1).

(** The checkerboard grid right after cell 0 was collapsed to tile 0. *)
Definition checkerboard_seeded : list FCell :=
  [collapsed_to 0; open_cell; open_cell; open_cell].

(** The two tilings of the checkerboard. *)
Definition checkerboard_0110 : list FCell :=
  [collapsed_to 0; collapsed_to 1; collapsed_to 1; collapsed_to 0].


(** Cell 1 has lost the only tile that its collapsed neighbour allows. *)
Definition checkerboard_stuck : list FCell :=
  [collapsed_to 0; mkCell [0] false (-1); open_cell; open_cell].

(** A grid with a collapsed cell, a cell without candidates and three cells
    of different sizes, two of them tied. *)
Definition scan_sample : list FCell :=
  [collapsed_to 0; mkCell [0; 1; 2] false (-1); mkCell [1; 2] false (-1);
   mkCell [] false (-1); mkCell [0; 2] false (-1)].

(** The component as the constructor leaves it, with three copies of the
    default tile, on a single cell. *)
Definition single_cell : Config :=
  mkConfig 1 1 [tile_A; tile_A; tile_A] DefaultCompatibleEdges.


(** ** SpawnTileMeshes

    The function creates one static mesh component per eligible cell, in
    index order.  A [Placement] records what the component is made from: the
    grid coordinates [X] and [Y] and the mesh.  The world position is
    computed from them in floating point
    ([Origin + FVector(X * TileSize, Y * TileSize, 0)]) and is not part of
    the model.  [HasWorld] says whether [GetWorld()] returns a world. *)

Record Placement : Type := mkPlacement {
  PlacedX : Z;
  PlacedY : Z;
  PlacedMesh : nat
}.

Section Spawning.
Variable cfg : Config.

(** The body of the loop for cell [i]. *)
Definition spawn_cell (i : Z) (Cell : FCell) : outcome (list Placement) :=
  if bIsCollapsed Cell && (0 <=? FinalState Cell)
     && (FinalState Cell <? Num (TileTypes cfg)) then
    XY ← IndexToXY cfg i;
    Tile ← at_index (TileTypes cfg) (FinalState Cell);
    match Mesh Tile with
    | Some TileMesh => Ret [mkPlacement XY.1 XY.2 TileMesh]
    | None => Ret []
    end
  else Ret [].

Fixpoint spawn_scan (i : Z) (cells : list FCell) : outcome (list Placement) :=
  match cells with
  | [] => Ret []
  | Cell :: rest =>
      here ← spawn_cell i Cell;
      later ← spawn_scan (i + 1) rest;
      Ret (here ++ later)
  end.

Definition SpawnTileMeshes (HasWorld : bool) (Grid : list FCell)
    : outcome (list Placement) :=
  if negb HasWorld then Ret [] else spawn_scan 0 Grid.

End Spawning.

(** ** Further predicates *)

(** Tile [t] may stand next to tile [s] in direction [d]: the edge of [s]
    facing [d] is compatible with the edge of [t] facing back. *)
Definition supports (cfg : Config) (d : Direction) (s t : Z) : Prop :=
  ∃ TileS TileT,
    0 ≤ s ∧ TileTypes cfg !! Z.to_nat s = Some TileS ∧
    0 ≤ t ∧ TileTypes cfg !! Z.to_nat t = Some TileT ∧
    AreEdgesCompatible cfg (edge d TileS) (edge (opposite d) TileT) = true.

(** The number of cells that are not collapsed. *)
Fixpoint uncollapsed (Grid : list FCell) : nat :=
  match Grid with
  | [] => 0
  | Cell :: rest => (if bIsCollapsed Cell then 0 else 1) + uncollapsed rest
  end%nat.

(** The step from a cell's index to its neighbour's in direction [d]. *)
Definition index_offset (cfg : Config) (d : Direction) : Z :=
  match d with
  | North => - GridWidth cfg
  | East => 1
  | South => GridWidth cfg
  | West => -1
  end.

(** The neighbour in direction [d] of the cell at [(X, Y)] lies in the grid. *)
Definition neighbor_in_grid (cfg : Config) (d : Direction) (X Y : Z) : Prop :=
  match d with
  | North => 0 < Y
  | East => X + 1 < GridWidth cfg
  | South => Y + 1 < GridHeight cfg
  | West => 0 < X
  end.

(** What a line of the validation log says about the configuration. *)
Definition line_justified (cfg : Config) (line : LogLine) : Prop :=
  match line with
  | NoTileTypes => TileTypes cfg = []
  | NoCompatibilityRule i d => 0 ≤ i ∧ missing_rule cfg (Z.to_nat i) d
  | NotSymmetric Edge1 Edge2 Reverse =>
      asymmetric_pair cfg Edge1 Edge2 ∧ Reverse = CompatibleEdges cfg !! Edge2
  | InvalidRules => False
  | MaxIterationsReached _ => False
  end.

(** ** More sample data *)

Definition tile_A_mesh : FTileType := mkTile (Some 7%nat) Type_A Type_A Type_A Type_A.
Definition tile_B_mesh : FTileType := mkTile (Some 8%nat) Type_B Type_B Type_B Type_B.

(** The checkerboard with meshes on both tiles. *)
Definition checkerboard_meshes : Config :=
  mkConfig 2 2 [tile_A_mesh; tile_B_mesh] cross_edges.

(** A 3x2 grid over the constructor's table. *)
Definition three_by_two : Config :=
  mkConfig 3 2 [tile_A; tile_B] DefaultCompatibleEdges.

(** A validated configuration without any cell. *)
Definition zero_width : Config := mkConfig 0 5 [tile_A] DefaultCompatibleEdges.

(** Any grid size over a single tile that pairs with itself. *)
Definition single_tile (Width Height : Z) : Config :=
  mkConfig Width Height [tile_A] DefaultCompatibleEdges.

(** Tile [t] is supported, in direction [d], by one of the candidates
    [States] of the current cell. *)
Definition supported_by (cfg : Config) (d : Direction) (States : list Z) (t : Z) : Prop :=
  ∃ s, s ∈ States ∧ supports cfg d s t.

(** [Queue'] is [Queue] with at most [n] indices appended, all different,
    none of them in [Queue], each addressing a cell of [Grid]. *)
Definition appended (Grid : list FCell) (Queue Queue' : list Z) (n : nat) : Prop :=
  ∃ Added,
    Queue' = Queue ++ Added ∧ (length Added ≤ n)%nat ∧ NoDup Added ∧
    ∀ i, i ∈ Added → (i ∉ Queue) ∧ 0 ≤ i < Num Grid.

(** * Properties *)

(** ** Checked indexing *)

Lemma Num_nonneg {A : Type} (l : list A) : 0 ≤ Num l.
Proof. unfold Num. lia. Qed.

Lemma at_index_Ret {A : Type} (l : list A) (i : Z) (a : A) :
  at_index l i = Ret a ↔ 0 ≤ i ∧ l !! Z.to_nat i = Some a.
Proof.
  unfold at_index, Num. case_bool_decide as Hi.
  - destruct (l !! Z.to_nat i) eqn:E; split; intros Hx;
      try discriminate; try (destruct Hx; congruence).
    inversion Hx; subst. split; [lia | done].
  - split; [discriminate |]. intros [Hnn Hl].
    apply lookup_lt_Some in Hl. lia.
Qed.

Lemma at_index_in_range {A : Type} (l : list A) (i : Z) :
  0 ≤ i < Num l → ∃ a, at_index l i = Ret a ∧ l !! Z.to_nat i = Some a.
Proof.
  intros Hi. destruct (lookup_lt_is_Some_2 l (Z.to_nat i)) as [a Ha].
  { unfold Num in Hi. lia. }
  exists a. split; [| done]. apply at_index_Ret. split; [lia | done].
Qed.

(** ** The entropy scan *)

Lemma entropy_scan_spec (cells : list FCell) (i : Z) (acc : Z * Z) :
  (entropy_scan i cells acc = acc ∧
   ∀ j C, cells !! j = Some C → eligible C → acc.2 ≤ Num (PossibleStates C))
  ∨
  (∃ (k : nat) (Cell : FCell),
     cells !! k = Some Cell ∧ eligible Cell ∧
     entropy_scan i cells acc = (i + Z.of_nat k, Num (PossibleStates Cell)) ∧
     Num (PossibleStates Cell) < acc.2 ∧
     ∀ j C, cells !! j = Some C → eligible C →
       Num (PossibleStates Cell) ≤ Num (PossibleStates C) ∧
       (Num (PossibleStates C) = Num (PossibleStates Cell) → (k ≤ j)%nat)).
Proof.
  revert i acc. induction cells as [| c rest IH]; intros i acc.
  - left. split; [done |]. intros j C Hj. discriminate.
  - simpl. destruct (IH (i + 1) (entropy_step acc i c)) as [[Heq Hmin] | Hfound].
    + (* nothing better in the rest *)
      unfold entropy_step in *.
      destruct (bIsCollapsed c) eqn:Hc; simpl in *.
      { left. split; [done |]. intros [| j] C Hj [Hnc Hpos]; simpl in Hj.
        - inversion Hj; subst. congruence.
        - eapply Hmin; [done | by split]. }
      destruct (0 <? Num (PossibleStates c)) eqn:Hp; simpl in *.
      2:{ left. split; [done |]. intros [| j] C Hj [Hnc Hpos]; simpl in Hj.
          - inversion Hj; subst. lia.
          - eapply Hmin; [done | by split]. }
      destruct (Num (PossibleStates c) <? acc.2) eqn:Hlt; simpl in *.
      * right. exists 0%nat, c. split; [done |]. split; [split; [done | lia] |].
        split; [rewrite Heq; f_equal; lia |]. split; [lia |].
        intros [| j] C Hj HC; simpl in Hj.
        -- inversion Hj; subst. split; [lia | lia].
        -- split; [by eapply Hmin | lia].
      * left. split; [done |]. intros [| j] C Hj HC; simpl in Hj.
        -- inversion Hj; subst. lia.
        -- by eapply Hmin.
    + destruct Hfound as (k & Cell & Hk & Helig & Heq & Hlt & Hmin).
      right. exists (S k), Cell. split; [done |]. split; [done |].
      split; [rewrite Heq; f_equal; lia |].
      assert (Hacc : (entropy_step acc i c).2 ≤ acc.2).
      { unfold entropy_step.
        destruct (negb (bIsCollapsed c) && (0 <? Num (PossibleStates c))); [| lia].
        destruct (Num (PossibleStates c) <? acc.2) eqn:E; simpl; lia. }
      split; [lia |].
      intros [| j] C Hj HC; simpl in Hj.
      * inversion Hj; subst.
        assert (Num (PossibleStates Cell) < Num (PossibleStates C)); [| lia].
        destruct HC as [HCc HCp]. unfold entropy_step in Hlt.
        rewrite HCc in Hlt. simpl in Hlt.
        destruct (0 <? Num (PossibleStates C)) eqn:E1; [| lia].
        destruct (Num (PossibleStates C) <? acc.2) eqn:E2; simpl in Hlt; lia.
      * destruct (Hmin j C Hj HC) as [H1 H2]. split; [done |].
        intros E. specialize (H2 E). lia.
Qed.

(** The bound in the statement below is the start value of the scan: a
    candidate count is compared with [LowestEntropy] by [<], so a cell with
    [INT32_MAX] candidates, the largest count an [int32] can report, does
    not replace the start value. *)
Remark scan_start_value (States : list Z) :
  Num States = INT32_MAX →
  FindCellWithLowestEntropy [mkCell States false (-1)] = -1.
Proof.
  intros Hnum. unfold FindCellWithLowestEntropy. simpl.
  unfold entropy_step. simpl. by rewrite Hnum.
Qed.

(** C1.  On a grid whose cells hold fewer than [INT32_MAX] candidates (the
    value the scan starts from), [FindCellWithLowestEntropy] returns [-1]
    exactly when no cell is both non-collapsed and non-empty; otherwise it
    returns the index of such a cell whose candidate count is the smallest,
    and the lowest index among the cells with that count. *)
Theorem FindCellWithLowestEntropy_correct (Grid : list FCell) :
  Forall (λ Cell, Num (PossibleStates Cell) < INT32_MAX) Grid →
  (FindCellWithLowestEntropy Grid = -1 ↔
     ∀ j C, Grid !! j = Some C → ¬ eligible C) ∧
  (FindCellWithLowestEntropy Grid ≠ -1 →
     ∃ Cell,
       0 ≤ FindCellWithLowestEntropy Grid < Num Grid ∧
       Grid !! Z.to_nat (FindCellWithLowestEntropy Grid) = Some Cell ∧
       eligible Cell ∧
       ∀ j C, Grid !! j = Some C → eligible C →
         Num (PossibleStates Cell) ≤ Num (PossibleStates C) ∧
         (Num (PossibleStates C) = Num (PossibleStates Cell) →
          FindCellWithLowestEntropy Grid ≤ Z.of_nat j)).
Proof.
  intros Hbound. unfold FindCellWithLowestEntropy.
  destruct (entropy_scan_spec Grid 0 (-1, INT32_MAX))
    as [[Heq Hmin] | (k & Cell & Hk & Helig & Heq & Hlt & Hmin)];
    rewrite Heq; simpl in *.
  - split; [| done]. split; [| done]. intros _ j C Hj HC.
    specialize (Hmin j C Hj HC).
    rewrite Forall_lookup in Hbound. specialize (Hbound j C Hj). simpl in Hbound. lia.
  - split.
    + split; [lia |]. intros Hnone. destruct (Hnone k Cell Hk Helig).
    + intros _. exists Cell. pose proof (lookup_lt_Some _ _ _ Hk) as Hklt.
      split; [unfold Num; lia |].
      replace (Z.to_nat (0 + Z.of_nat k)) with k by lia.
      split; [done |]. split; [done |].
      intros j C Hj HC. destruct (Hmin j C Hj HC) as [H1 H2].
      split; [done |]. intros E. specialize (H2 E). lia.
Qed.

(** ** Sequencing *)

Lemma bind_Ret {A B : Type} (m : outcome A) (f : A → outcome B) (b : B) :
  m ≫= f = Ret b ↔ ∃ a, m = Ret a ∧ f a = Ret b.
Proof.
  destruct m as [a | |]; simpl; split.
  - intros Hf. by exists a.
  - intros (a' & Ha & Hf). by inversion Ha; subst.
  - discriminate.
  - intros (a' & Ha & _). discriminate.
  - discriminate.
  - intros (a' & Ha & _). discriminate.
Qed.

Lemma bind_OutOfFuel {A B : Type} (m : outcome A) (f : A → outcome B) :
  m ≫= f = OutOfFuel ↔ m = OutOfFuel ∨ ∃ a, m = Ret a ∧ f a = OutOfFuel.
Proof.
  destruct m as [a | |]; simpl; split; try discriminate; eauto.
  - intros [Hm | (a' & Ha & Hf)]; [discriminate | by inversion Ha; subst].
  - intros [Hm | (a' & Ha & _)]; discriminate.
Qed.

(** ** UpdateCellPossibilities *)

Lemma narrowed_empty (Cell : FCell) : narrowed Cell [] = Cell.
Proof. reflexivity. Qed.

Lemma narrowed_single (Cell : FCell) (State : Z) :
  narrowed Cell [State] = collapsed_to State.
Proof. reflexivity. Qed.

Lemma narrowed_PossibleStates (Cell : FCell) (New : list Z) :
  PossibleStates (narrowed Cell New) = if 0 <? Num New then New else PossibleStates Cell.
Proof.
  unfold narrowed. destruct (0 <? Num New); [| done]. by destruct (Num New =? 1).
Qed.

Lemma filter_allowed_sublist (AllowedStates States : list Z) :
  filter_allowed AllowedStates States `sublist_of` States.
Proof. apply sublist_filter. Qed.

(** The update seen from the cell it addresses. *)
Lemma UpdateCellPossibilities_at (Grid : list FCell) (CellIndex : Z)
    (AllowedStates : list Z) (Cell : FCell) :
  0 ≤ CellIndex → Grid !! Z.to_nat CellIndex = Some Cell →
  UpdateCellPossibilities Grid CellIndex AllowedStates =
    if bIsCollapsed Cell then (Grid, false)
    else
      (<[Z.to_nat CellIndex :=
           narrowed Cell (filter_allowed AllowedStates (PossibleStates Cell))]> Grid,
       negb (Num (PossibleStates Cell) =?
             Num (PossibleStates
                    (narrowed Cell (filter_allowed AllowedStates (PossibleStates Cell)))))).
Proof.
  intros Hnn Hl. unfold UpdateCellPossibilities.
  pose proof (lookup_lt_Some _ _ _ Hl) as Hlt.
  replace (CellIndex <? 0) with false by (symmetry; apply Z.ltb_ge; lia).
  replace (Num Grid <=? CellIndex) with false
    by (symmetry; apply Z.leb_gt; unfold Num; lia).
  simpl. by rewrite Hl.
Qed.

(** Outside the grid, or on a collapsed cell, nothing happens. *)
Lemma UpdateCellPossibilities_outside (Grid : list FCell) (CellIndex : Z)
    (AllowedStates : list Z) :
  ¬ (0 ≤ CellIndex < Num Grid) →
  UpdateCellPossibilities Grid CellIndex AllowedStates = (Grid, false).
Proof.
  intros Hout. unfold UpdateCellPossibilities.
  destruct (CellIndex <? 0) eqn:E1; [done |].
  destruct (Num Grid <=? CellIndex) eqn:E2; [done |]. lia.
Qed.

(** Every update is an in-place replacement of one cell by a cell the
    filter produces from it, or no change at all. *)
Lemma UpdateCellPossibilities_cases (Grid : list FCell) (CellIndex : Z)
    (AllowedStates : list Z) :
  UpdateCellPossibilities Grid CellIndex AllowedStates = (Grid, false)
  ∨ ∃ Cell,
      0 ≤ CellIndex < Num Grid ∧
      Grid !! Z.to_nat CellIndex = Some Cell ∧ bIsCollapsed Cell = false ∧
      UpdateCellPossibilities Grid CellIndex AllowedStates =
        (<[Z.to_nat CellIndex :=
             narrowed Cell (filter_allowed AllowedStates (PossibleStates Cell))]> Grid,
         negb (Num (PossibleStates Cell) =?
               Num (PossibleStates
                      (narrowed Cell (filter_allowed AllowedStates (PossibleStates Cell)))))).
Proof.
  destruct (decide (0 ≤ CellIndex < Num Grid)) as [Hin | Hout].
  - destruct (lookup_lt_is_Some_2 Grid (Z.to_nat CellIndex)) as [Cell HCell].
    { unfold Num in Hin. lia. }
    rewrite (UpdateCellPossibilities_at _ _ _ Cell) by (done || lia).
    destruct (bIsCollapsed Cell) eqn:Hc; [by left |].
    right. exists Cell. by rewrite Hc.
  - left. by apply UpdateCellPossibilities_outside.
Qed.

(** C2.  When the filter leaves exactly one candidate in a non-collapsed
    cell, the update stores that candidate as the cell's only candidate and
    final state and sets the collapsed flag; the other cells are not
    touched.  The update is a function of the grid, the index and the
    allowed states alone: the generator is not an argument. *)
Theorem UpdateCellPossibilities_forced (Grid : list FCell) (CellIndex : Z)
    (AllowedStates : list Z) (Cell : FCell) (State : Z) :
  0 ≤ CellIndex →
  Grid !! Z.to_nat CellIndex = Some Cell →
  bIsCollapsed Cell = false →
  filter_allowed AllowedStates (PossibleStates Cell) = [State] →
  ∃ Cell',
    (UpdateCellPossibilities Grid CellIndex AllowedStates).1 !! Z.to_nat CellIndex
      = Some Cell' ∧
    bIsCollapsed Cell' = true ∧
    FinalState Cell' = State ∧
    PossibleStates Cell' = [State] ∧
    (UpdateCellPossibilities Grid CellIndex AllowedStates).1
      = <[Z.to_nat CellIndex := Cell']> Grid.
Proof.
  intros Hnn Hl Hnc Hone. exists (collapsed_to State).
  rewrite (UpdateCellPossibilities_at _ _ _ Cell) by done.
  rewrite Hnc, Hone, narrowed_single. simpl.
  split; [| done].
  apply list_lookup_insert_eq. by eapply lookup_lt_Some.
Qed.

(** C3.  When no candidate of the neighbour is allowed, the update returns
    the grid as it was and reports no change, and the block of
    [PropagateConstraints] that made the call leaves the queue as it was. *)
Theorem empty_intersection_ignored (cfg : Config) (Grid : list FCell)
    (NeighborIndex : Z) (AllowedStates : list Z) (Neighbor : FCell) :
  0 ≤ NeighborIndex →
  Grid !! Z.to_nat NeighborIndex = Some Neighbor →
  filter_allowed AllowedStates (PossibleStates Neighbor) = [] →
  UpdateCellPossibilities Grid NeighborIndex AllowedStates = (Grid, false) ∧
  ∀ (d : Direction) (CurrentCellIndex X Y : Z) (CurrentCell : FCell) (Queue : list Z),
    has_neighbor cfg d X Y = true →
    neighbor_index cfg d X Y = NeighborIndex →
    at_index Grid CurrentCellIndex = Ret CurrentCell →
    allowed_states cfg d (PossibleStates CurrentCell) [] = Ret AllowedStates →
    process_neighbor cfg d CurrentCellIndex X Y (Grid, Queue) = Ret (Grid, Queue).
Proof.
  intros Hnn Hl Hempty.
  assert (Hupd : UpdateCellPossibilities Grid NeighborIndex AllowedStates = (Grid, false)).
  { rewrite (UpdateCellPossibilities_at _ _ _ Neighbor) by done.
    destruct (bIsCollapsed Neighbor); [done |].
    rewrite Hempty, narrowed_empty, Z.eqb_refl. simpl.
    by rewrite list_insert_id. }
  split; [done |].
  intros d Cur X Y CurrentCell Queue Hhas Hidx Hcur Hallowed.
  unfold process_neighbor. rewrite Hhas. simpl.
  rewrite Hcur. simpl. rewrite Hallowed. simpl.
  by rewrite Hidx, Hupd.
Qed.

(** ** What propagation can do to a grid

    [PropagateConstraints] changes the grid through
    [UpdateCellPossibilities] only, so a property of grids that every update
    preserves is preserved by every call. *)

Section Preservation.
Variable cfg : Config.
Variable P : list FCell → Prop.
Hypothesis P_update : ∀ Grid CellIndex AllowedStates,
  P Grid → P (UpdateCellPossibilities Grid CellIndex AllowedStates).1.

Lemma process_neighbor_preserves (d : Direction) (Cur X Y : Z)
    (st st' : list FCell * list Z) :
  P st.1 → process_neighbor cfg d Cur X Y st = Ret st' → P st'.1.
Proof.
  intros HP. unfold process_neighbor.
  destruct (has_neighbor cfg d X Y); [| by intros [= <-]].
  intros Hrun. apply bind_Ret in Hrun as (CurrentCell & _ & Hrun).
  apply bind_Ret in Hrun as (Allowed & _ & Hrun).
  inversion Hrun; subst; simpl. by apply P_update.
Qed.

Lemma propagate_step_preserves (Cur : Z) (st st' : list FCell * list Z) :
  P st.1 → propagate_step cfg Cur st = Ret st' → P st'.1.
Proof.
  intros HP. unfold propagate_step. intros Hrun.
  apply bind_Ret in Hrun as (XY & _ & Hrun).
  apply bind_Ret in Hrun as (c & _ & Hrun).
  apply bind_Ret in Hrun as (st1 & H1 & Hrun).
  apply bind_Ret in Hrun as (st2 & H2 & Hrun).
  apply bind_Ret in Hrun as (st3 & H3 & H4).
  eauto using process_neighbor_preserves.
Qed.

Lemma propagate_loop_preserves (fuel : nat) (Grid : list FCell) (Queue : list Z)
    (Grid' : list FCell) :
  P Grid → propagate_loop cfg fuel Grid Queue = Ret Grid' → P Grid'.
Proof.
  revert Grid Queue. induction fuel as [| fuel IH]; intros Grid Queue HP.
  - destruct Queue; simpl; [by intros [= <-] | discriminate].
  - destruct Queue as [| Cur Queue]; simpl; [by intros [= <-] |].
    intros Hrun. apply bind_Ret in Hrun as (st & Hstep & Hrun).
    eapply IH; [| exact Hrun].
    eapply propagate_step_preserves; [| exact Hstep]. done.
Qed.

Lemma PropagateConstraints_preserves (fuel : nat) (Grid : list FCell)
    (CellIndex : Z) (Grid' : list FCell) :
  P Grid → PropagateConstraints cfg fuel Grid CellIndex = Ret Grid' → P Grid'.
Proof.
  intros HP. unfold PropagateConstraints.
  destruct ((CellIndex <? 0) || (Num Grid <=? CellIndex)); [by intros [= <-] |].
  by apply propagate_loop_preserves.
Qed.

Lemma propagate_all_preserves (fuel : nat) (origins : list Z)
    (Grid Grid' : list FCell) :
  P Grid → propagate_all cfg fuel Grid origins = Ret Grid' → P Grid'.
Proof.
  revert Grid. induction origins as [| CellIndex rest IH]; intros Grid HP; simpl.
  - by intros [= <-].
  - intros Hrun. apply bind_Ret in Hrun as (Grid1 & H1 & Hrun).
    eapply IH; [| exact Hrun]. by eapply PropagateConstraints_preserves.
Qed.

End Preservation.

(** ** Candidate sets only shrink *)

Lemma cell_shrinks_refl (Cell : FCell) : cell_shrinks Cell Cell.
Proof. by split. Qed.

Lemma cell_shrinks_trans (A B C : FCell) :
  cell_shrinks A B → cell_shrinks B C → cell_shrinks A C.
Proof.
  intros [Hab Ha] [Hbc Hb]. split.
  - by etrans.
  - intros HA. specialize (Ha HA). subst B. by apply Hb.
Qed.

Lemma grid_shrinks_refl (Grid : list FCell) : grid_shrinks Grid Grid.
Proof. apply Forall2_same_length_lookup. split; [done |].
  intros i x y Hx Hy. rewrite Hx in Hy. inversion Hy; subst. apply cell_shrinks_refl. Qed.

Lemma grid_shrinks_trans (A B C : list FCell) :
  grid_shrinks A B → grid_shrinks B C → grid_shrinks A C.
Proof.
  unfold grid_shrinks. intros Hab. revert C.
  induction Hab as [| a b A B Hab HAB IH]; intros C HBC.
  - by inversion HBC.
  - inversion HBC; subst. constructor; [by eapply cell_shrinks_trans | by apply IH].
Qed.

Lemma narrowed_shrinks (Cell : FCell) (AllowedStates : list Z) :
  bIsCollapsed Cell = false →
  cell_shrinks Cell (narrowed Cell (filter_allowed AllowedStates (PossibleStates Cell))).
Proof.
  intros Hnc. split; [| congruence].
  rewrite narrowed_PossibleStates.
  destruct (0 <? _); [apply filter_allowed_sublist | done].
Qed.

Lemma UpdateCellPossibilities_shrinks (Grid : list FCell) (CellIndex : Z)
    (AllowedStates : list Z) :
  grid_shrinks Grid (UpdateCellPossibilities Grid CellIndex AllowedStates).1.
Proof.
  destruct (UpdateCellPossibilities_cases Grid CellIndex AllowedStates)
    as [-> | (Cell & Hin & Hl & Hnc & ->)]; simpl.
  - apply grid_shrinks_refl.
  - rewrite <- (list_insert_id Grid (Z.to_nat CellIndex) Cell) at 1 by done.
    apply Forall2_insert; [apply grid_shrinks_refl | by apply narrowed_shrinks].
Qed.

Lemma grid_shrinks_lookup (Old New : list FCell) (i : nat) (Cell Cell' : FCell) :
  grid_shrinks Old New → Old !! i = Some Cell → New !! i = Some Cell' →
  cell_shrinks Cell Cell'.
Proof. intros Hs Ho Hn. by eapply Forall2_lookup_lr. Qed.

Lemma grid_shrinks_only_shrunk (Old New : list FCell) :
  grid_shrinks Old New → only_shrunk Old New.
Proof.
  intros Hs. split; [symmetry; by eapply Forall2_length |].
  intros i Cell Cell' Hl Hl'.
  destruct (grid_shrinks_lookup _ _ _ _ _ Hs Hl Hl') as [Hsub Hfix].
  split; [by apply sublist_subseteq |]. split; [| done].
  apply sublist_length in Hsub. unfold Num. lia.
Qed.

Lemma grid_shrinks_update (Grid Grid1 : list FCell) (CellIndex : Z)
    (AllowedStates : list Z) :
  grid_shrinks Grid Grid1 →
  grid_shrinks Grid (UpdateCellPossibilities Grid1 CellIndex AllowedStates).1.
Proof.
  intros Hs. eapply grid_shrinks_trans; [exact Hs |].
  apply UpdateCellPossibilities_shrinks.
Qed.

(** C4.  Across any sequence of [PropagateConstraints] calls, from any point
    inside a call (a grid and a queue of pending cells) to its end, and over
    a single update, the grid keeps its length; the candidates of every cell
    afterwards are among its candidates before (so there are no more of
    them), and a cell that was collapsed before is the same cell
    afterwards, with the same candidates, flag and final state. *)
Theorem propagation_only_shrinks (cfg : Config) (fuel : nat) (Grid : list FCell) :
  (∀ origins Grid',
     propagate_all cfg fuel Grid origins = Ret Grid' → only_shrunk Grid Grid') ∧
  (∀ Queue Grid',
     propagate_loop cfg fuel Grid Queue = Ret Grid' → only_shrunk Grid Grid') ∧
  (∀ CellIndex AllowedStates,
     only_shrunk Grid (UpdateCellPossibilities Grid CellIndex AllowedStates).1).
Proof.
  split; [| split].
  - intros origins Grid' Hrun. apply grid_shrinks_only_shrunk.
    eapply (propagate_all_preserves cfg (grid_shrinks Grid)); [| | exact Hrun].
    + intros *. apply grid_shrinks_update.
    + apply grid_shrinks_refl.
  - intros Queue Grid' Hrun. apply grid_shrinks_only_shrunk.
    eapply (propagate_loop_preserves cfg (grid_shrinks Grid)); [| | exact Hrun].
    + intros *. apply grid_shrinks_update.
    + apply grid_shrinks_refl.
  - intros CellIndex AllowedStates. apply grid_shrinks_only_shrunk.
    apply UpdateCellPossibilities_shrinks.
Qed.

(** ** CollapseCell *)

Lemma CollapseCell_outside {R : Type} `{RandomSource R}
    (Grid : list FCell) (rng : R) (CellIndex : Z) :
  ¬ (0 ≤ CellIndex < Num Grid) → CollapseCell Grid rng CellIndex = Ret (Grid, rng).
Proof.
  intros Hout. unfold CollapseCell.
  destruct (CellIndex <? 0) eqn:E1; [done |].
  destruct (Num Grid <=? CellIndex) eqn:E2; [done |]. lia.
Qed.

(** The call seen from the cell it addresses. *)
Lemma CollapseCell_at {R : Type} `{RandomSource R}
    (Grid : list FCell) (rng : R) (CellIndex : Z) (Cell : FCell) :
  0 ≤ CellIndex → Grid !! Z.to_nat CellIndex = Some Cell →
  CollapseCell Grid rng CellIndex =
    if bIsCollapsed Cell || (Num (PossibleStates Cell) =? 0) then Ret (Grid, rng)
    else
      at_index (PossibleStates Cell)
               (RandRange rng 0 (Num (PossibleStates Cell) - 1)).1
      ≫= λ ChosenState,
           Ret (<[Z.to_nat CellIndex := collapsed_to ChosenState]> Grid,
                (RandRange rng 0 (Num (PossibleStates Cell) - 1)).2).
Proof.
  intros Hnn Hl. unfold CollapseCell.
  pose proof (lookup_lt_Some _ _ _ Hl) as Hlt.
  replace (CellIndex <? 0) with false by (symmetry; apply Z.ltb_ge; lia).
  replace (Num Grid <=? CellIndex) with false
    by (symmetry; apply Z.leb_gt; unfold Num; lia).
  simpl. replace (at_index Grid CellIndex) with (Ret Cell)
    by (symmetry; by apply at_index_Ret).
  simpl. destruct (bIsCollapsed Cell || _); [done |].
  by destruct (RandRange rng 0 (Num (PossibleStates Cell) - 1)).
Qed.

(** A normal return either changes nothing or collapses a cell that was
    not collapsed to one of its candidates. *)
Lemma CollapseCell_Ret {R : Type} `{RandomSource R}
    (Grid : list FCell) (rng : R) (CellIndex : Z) (Grid' : list FCell) (rng' : R) :
  CollapseCell Grid rng CellIndex = Ret (Grid', rng') →
  (Grid' = Grid ∧ rng' = rng)
  ∨ ∃ Cell ChosenState,
      0 ≤ CellIndex < Num Grid ∧
      Grid !! Z.to_nat CellIndex = Some Cell ∧ bIsCollapsed Cell = false ∧
      ChosenState ∈ PossibleStates Cell ∧
      Grid' = <[Z.to_nat CellIndex := collapsed_to ChosenState]> Grid.
Proof.
  destruct (decide (0 ≤ CellIndex < Num Grid)) as [Hin | Hout].
  2:{ rewrite CollapseCell_outside by done. intros [= <- <-]. by left. }
  destruct (lookup_lt_is_Some_2 Grid (Z.to_nat CellIndex)) as [Cell HCell].
  { unfold Num in Hin. lia. }
  rewrite (CollapseCell_at _ _ _ Cell) by (done || lia).
  destruct (bIsCollapsed Cell) eqn:Hc; simpl; [intros [= <- <-]; by left |].
  destruct (Num (PossibleStates Cell) =? 0); [intros [= <- <-]; by left |].
  intros Hrun. apply bind_Ret in Hrun as (ChosenState & Hat & Hret).
  inversion Hret; subst. right. exists Cell, ChosenState.
  apply at_index_Ret in Hat as [_ Hat].
  repeat split; try done; try lia. by eapply list_elem_of_lookup_2.
Qed.

(** With a generator that honours its bounds, a cell that is not collapsed
    and has candidates is collapsed to the candidate at the drawn index. *)
Lemma CollapseCell_draws {R : Type} `{RandomSource R}
    (Grid : list FCell) (rng : R) (CellIndex : Z) (Cell : FCell) :
  RandRange_in_range R →
  0 ≤ CellIndex → Grid !! Z.to_nat CellIndex = Some Cell →
  bIsCollapsed Cell = false → 0 < Num (PossibleStates Cell) →
  ∃ ChosenState,
    PossibleStates Cell
      !! Z.to_nat (RandRange rng 0 (Num (PossibleStates Cell) - 1)).1
      = Some ChosenState ∧
    CollapseCell Grid rng CellIndex =
      Ret (<[Z.to_nat CellIndex := collapsed_to ChosenState]> Grid,
           (RandRange rng 0 (Num (PossibleStates Cell) - 1)).2).
Proof.
  intros Hrange Hnn Hl Hnc Hpos.
  rewrite (CollapseCell_at _ _ _ Cell) by done.
  rewrite Hnc. simpl.
  replace (Num (PossibleStates Cell) =? 0) with false by (symmetry; apply Z.eqb_neq; lia).
  destruct (Hrange rng 0 (Num (PossibleStates Cell) - 1)) as [Hlo Hhi]; [lia |].
  destruct (at_index_in_range (PossibleStates Cell)
              (RandRange rng 0 (Num (PossibleStates Cell) - 1)).1)
    as (ChosenState & Hat & Hlook); [lia |].
  exists ChosenState. split; [done |]. by rewrite Hat.
Qed.

(** C6.  [CollapseCell] returns the grid and the generator as they were when
    the index is outside the grid, when the cell is already collapsed and
    when it has no candidate.  On any other cell it draws an index, takes
    the candidate found there, and leaves the cell with that candidate as
    its only candidate and its final state, and with the collapsed flag
    set. *)
Theorem CollapseCell_spec {R : Type} `{RandomSource R}
    (Grid : list FCell) (rng : R) (CellIndex : Z) :
  RandRange_in_range R →
  (¬ (0 ≤ CellIndex < Num Grid) →
     CollapseCell Grid rng CellIndex = Ret (Grid, rng)) ∧
  ∀ Cell, 0 ≤ CellIndex → Grid !! Z.to_nat CellIndex = Some Cell →
    (bIsCollapsed Cell = true ∨ Num (PossibleStates Cell) = 0 →
       CollapseCell Grid rng CellIndex = Ret (Grid, rng)) ∧
    (bIsCollapsed Cell = false → Num (PossibleStates Cell) ≠ 0 →
       ∃ (ChosenState : Z) (Grid' : list FCell) (rng' : R) (Cell' : FCell),
         CollapseCell Grid rng CellIndex = Ret (Grid', rng') ∧
         ChosenState ∈ PossibleStates Cell ∧
         Grid' = <[Z.to_nat CellIndex := Cell']> Grid ∧
         Grid' !! Z.to_nat CellIndex = Some Cell' ∧
         PossibleStates Cell' = [ChosenState] ∧
         FinalState Cell' = ChosenState ∧
         bIsCollapsed Cell' = true).
Proof.
  intros Hrange. split; [apply CollapseCell_outside |].
  intros Cell Hnn Hl. split.
  - intros Hnoop. rewrite (CollapseCell_at _ _ _ Cell) by done.
    destruct Hnoop as [-> | ->]; [done |]. by rewrite orb_true_r.
  - intros Hnc Hne.
    pose proof (Num_nonneg (PossibleStates Cell)) as Hge.
    destruct (CollapseCell_draws Grid rng CellIndex Cell)
      as (ChosenState & Hlook & Hrun); try done; [lia |].
    exists ChosenState, (<[Z.to_nat CellIndex := collapsed_to ChosenState]> Grid),
      (RandRange rng 0 (Num (PossibleStates Cell) - 1)).2, (collapsed_to ChosenState).
    split; [done |]. split; [by eapply list_elem_of_lookup_2 |].
    split; [done |]. split; [| done].
    apply list_lookup_insert_eq. by eapply lookup_lt_Some.
Qed.

(** ** The solve loop changes the grid through two operations only *)

Section SolvePreservation.
Context {R : Type} `{RandomSource R}.
Variable cfg : Config.
Variable P : list FCell → Prop.
Hypothesis P_update : ∀ Grid CellIndex AllowedStates,
  P Grid → P (UpdateCellPossibilities Grid CellIndex AllowedStates).1.
Hypothesis P_collapse : ∀ Grid (rng : R) CellIndex Grid' rng',
  P Grid → CollapseCell Grid rng CellIndex = Ret (Grid', rng') → P Grid'.

Lemma solve_loop_preserves (fuel : nat) (Grid : list FCell) (rng : R) (k : Z)
    (res : list FCell * R * Z) :
  P Grid → solve_loop cfg fuel Grid rng k = Ret res → P res.1.1.
Proof.
  revert Grid rng k. induction fuel as [| fuel IH]; intros Grid rng k HP; simpl.
  - destruct (negb (IsGridFullyCollapsed Grid) && (k <? MaxIterations cfg));
      [discriminate | by intros [= <-]].
  - destruct (negb (IsGridFullyCollapsed Grid) && (k <? MaxIterations cfg));
      [| by intros [= <-]].
    destruct (FindCellWithLowestEntropy Grid =? -1); [by intros [= <-] |].
    intros Hrun. apply bind_Ret in Hrun as ([Grid1 rng1] & Hc & Hrun).
    apply bind_Ret in Hrun as (Grid2 & Hp & Hrun).
    eapply IH; [| exact Hrun].
    eapply (PropagateConstraints_preserves cfg P P_update); [| exact Hp].
    simpl. by eapply P_collapse.
Qed.

End SolvePreservation.

(** ** The cell invariant *)

Lemma elem_of_all_states (n : nat) (State : Z) :
  State ∈ all_states n ↔ 0 ≤ State < Z.of_nat n.
Proof.
  unfold all_states. rewrite list_elem_of_fmap. split.
  - intros (k & -> & Hk). apply elem_of_seq in Hk. lia.
  - intros Hs. exists (Z.to_nat State). split; [lia |]. apply elem_of_seq. lia.
Qed.

Lemma length_all_states (n : nat) : length (all_states n) = n.
Proof. unfold all_states. by rewrite length_fmap, length_seq. Qed.

Lemma InitGrid_Ret (cfg : Config) (Grid0 : list FCell) :
  InitGrid cfg = Ret Grid0 →
  0 ≤ wrap32 (GridWidth cfg * GridHeight cfg) ∧
  Grid0 = replicate (Z.to_nat (wrap32 (GridWidth cfg * GridHeight cfg)))
            {| PossibleStates := all_states (length (TileTypes cfg));
               bIsCollapsed := false; FinalState := -1 |}.
Proof.
  unfold InitGrid, SetNum.
  destruct (wrap32 (GridWidth cfg * GridHeight cfg) <? 0) eqn:E; [discriminate |].
  simpl. intros [= <-]. split; [lia |]. by rewrite fmap_replicate.
Qed.

Lemma InitGrid_ok (cfg : Config) (Grid0 : list FCell) :
  InitGrid cfg = Ret Grid0 → grid_ok (Num (TileTypes cfg)) Grid0.
Proof.
  intros Hinit. apply InitGrid_Ret in Hinit as [_ ->].
  apply Forall_replicate. split; simpl; [| discriminate].
  intros State. by rewrite elem_of_all_states.
Qed.

Lemma collapsed_to_ok (tileCount ChosenState : Z) :
  0 ≤ ChosenState < tileCount → cell_ok tileCount (collapsed_to ChosenState).
Proof.
  intros Hs. split; simpl; [| done].
  intros State HState. apply list_elem_of_singleton in HState. by subst.
Qed.

Lemma CollapseCell_ok {R : Type} `{RandomSource R} (tileCount : Z)
    (Grid : list FCell) (rng : R) (CellIndex : Z) (Grid' : list FCell) (rng' : R) :
  grid_ok tileCount Grid → CollapseCell Grid rng CellIndex = Ret (Grid', rng') →
  grid_ok tileCount Grid'.
Proof.
  intros Hok Hrun.
  apply CollapseCell_Ret in Hrun
    as [[-> _] | (Cell & s & Hin & Hl & Hnc & Hs & ->)]; [done |].
  apply Forall_insert; [done |]. apply collapsed_to_ok.
  unfold grid_ok in Hok. rewrite Forall_lookup in Hok.
  by apply (Hok _ _ Hl).
Qed.

Lemma narrowed_ok (tileCount : Z) (Cell : FCell) (AllowedStates : list Z) :
  cell_ok tileCount Cell → bIsCollapsed Cell = false →
  cell_ok tileCount (narrowed Cell (filter_allowed AllowedStates (PossibleStates Cell))).
Proof.
  intros [Hrange Hcol] Hnc.
  pose proof (filter_allowed_sublist AllowedStates (PossibleStates Cell)) as Hsub.
  apply sublist_subseteq in Hsub.
  unfold narrowed.
  destruct (0 <? Num (filter_allowed AllowedStates (PossibleStates Cell))) eqn:Hpos;
    [| by split].
  destruct (Num (filter_allowed AllowedStates (PossibleStates Cell)) =? 1) eqn:Hone.
  - apply Z.eqb_eq in Hone.
    destruct (filter_allowed AllowedStates (PossibleStates Cell)) as [| s [| s' rest]];
      [discriminate | | unfold Num in Hone; simpl in Hone; lia].
    apply collapsed_to_ok. apply Hrange, Hsub. by apply list_elem_of_singleton.
  - split; simpl; [| congruence].
    intros State HState. by apply Hrange, Hsub.
Qed.

Lemma UpdateCellPossibilities_ok (tileCount : Z) (Grid : list FCell)
    (CellIndex : Z) (AllowedStates : list Z) :
  grid_ok tileCount Grid →
  grid_ok tileCount (UpdateCellPossibilities Grid CellIndex AllowedStates).1.
Proof.
  intros Hok.
  destruct (UpdateCellPossibilities_cases Grid CellIndex AllowedStates)
    as [-> | (Cell & Hin & Hl & Hnc & ->)]; simpl; [done |].
  apply Forall_insert; [done |]. apply narrowed_ok; [| done].
  unfold grid_ok in Hok. rewrite Forall_lookup in Hok. by apply (Hok _ _ Hl).
Qed.

(** C10.  With [tileCount] the size of the catalog: the grid that
    [GenerateGrid] initialises satisfies the cell invariant (every candidate
    is a tile index below [tileCount]; a collapsed cell has its final state
    as only candidate, a tile index below [tileCount]), and [CollapseCell],
    [UpdateCellPossibilities] and [PropagateConstraints] preserve it, so the
    grid left by [GenerateGrid] satisfies it. *)
Theorem grid_invariant_preserved {R : Type} `{RandomSource R} (cfg : Config) :
  (∀ Grid0, InitGrid cfg = Ret Grid0 → grid_ok (Num (TileTypes cfg)) Grid0) ∧
  (∀ tileCount Grid (rng : R) CellIndex Grid' rng',
     grid_ok tileCount Grid →
     CollapseCell Grid rng CellIndex = Ret (Grid', rng') →
     grid_ok tileCount Grid') ∧
  (∀ tileCount Grid CellIndex AllowedStates,
     grid_ok tileCount Grid →
     grid_ok tileCount (UpdateCellPossibilities Grid CellIndex AllowedStates).1) ∧
  (∀ tileCount fuel Grid CellIndex Grid',
     grid_ok tileCount Grid →
     PropagateConstraints cfg fuel Grid CellIndex = Ret Grid' →
     grid_ok tileCount Grid') ∧
  (∀ fuel (w w' : World R) (iterations : Z),
     (ValidateEdgeRules cfg).1 = true →
     GenerateGrid cfg fuel w = Ret (w', iterations) →
     grid_ok (Num (TileTypes cfg)) (Grid w')).
Proof.
  split; [apply InitGrid_ok |].
  split; [intros *; apply CollapseCell_ok |].
  split; [intros *; apply UpdateCellPossibilities_ok |].
  split.
  - intros tileCount fuel Grid CellIndex Grid' Hok Hrun.
    eapply (PropagateConstraints_preserves cfg (grid_ok tileCount)); [| done | done].
    intros *. apply UpdateCellPossibilities_ok.
  - intros fuel w w' k Hvalid. unfold GenerateGrid. rewrite Hvalid. simpl.
    intros Hrun. apply bind_Ret in Hrun as (Grid0 & Hinit & Hrun).
    apply bind_Ret in Hrun as (res & Hsolve & Hret).
    inversion Hret; subst; simpl.
    eapply (solve_loop_preserves cfg (grid_ok (Num (TileTypes cfg))));
      [| | | exact Hsolve].
    + intros *. apply UpdateCellPossibilities_ok.
    + intros *. apply CollapseCell_ok.
    + by apply InitGrid_ok.
Qed.

(** ** ValidateEdgeRules *)

Section ValidationFacts.
Variable cfg : Config.

Lemma check_edge_valid (i : Z) (Tile : FTileType) (d : Direction)
    (st : bool * list LogLine) :
  (check_edge cfg i Tile d st).1 = true ↔
  st.1 = true ∧ is_Some (CompatibleEdges cfg !! edge d Tile).
Proof.
  unfold check_edge. destruct (CompatibleEdges cfg !! edge d Tile) eqn:E; simpl.
  - split; [intros Hst; split; [done | by eexists] | by intros [Hst _]].
  - split; [discriminate | intros [_ [x Hx]]; discriminate].
Qed.

Lemma check_edge_log (i : Z) (Tile : FTileType) (d : Direction)
    (st : bool * list LogLine) (line : LogLine) :
  line ∈ (check_edge cfg i Tile d st).2 ↔
  line ∈ st.2 ∨
  (CompatibleEdges cfg !! edge d Tile = None ∧ line = NoCompatibilityRule i d).
Proof.
  unfold check_edge. destruct (CompatibleEdges cfg !! edge d Tile) eqn:E; simpl.
  - split; [by left | intros [Hin | [Hnone _]]; [done | discriminate]].
  - rewrite elem_of_app, list_elem_of_singleton. split.
    + intros [Hin | ->]; [by left | by right].
    + intros [Hin | [_ ->]]; [by left | by right].
Qed.

Lemma check_tile_valid (i : Z) (Tile : FTileType) (st : bool * list LogLine) :
  (check_tile cfg i Tile st).1 = true ↔
  st.1 = true ∧ ∀ d, is_Some (CompatibleEdges cfg !! edge d Tile).
Proof.
  unfold check_tile. rewrite !check_edge_valid. split.
  - intros ((((Hst & HN) & HE) & HS) & HW). split; [done |]. by intros [].
  - intros [Hst Hall]. repeat split; (done || apply Hall).
Qed.

Lemma check_tile_log (i : Z) (Tile : FTileType) (st : bool * list LogLine)
    (line : LogLine) :
  line ∈ (check_tile cfg i Tile st).2 ↔
  line ∈ st.2 ∨
  ∃ d, CompatibleEdges cfg !! edge d Tile = None ∧ line = NoCompatibilityRule i d.
Proof.
  unfold check_tile. rewrite !check_edge_log. split.
  - intros [[[[Hin | HN] | HE] | HS] | HW]; [by left | right ..].
    + by exists North.
    + by exists East.
    + by exists South.
    + by exists West.
  - intros [Hin | [[] Hd]]; tauto.
Qed.

Lemma check_tiles_valid (tiles : list FTileType) (i : Z) (st : bool * list LogLine) :
  (check_tiles cfg i tiles st).1 = true ↔
  st.1 = true ∧
  ∀ (k : nat) Tile d, tiles !! k = Some Tile →
    is_Some (CompatibleEdges cfg !! edge d Tile).
Proof.
  revert i st. induction tiles as [| T rest IH]; intros i st; simpl.
  - split; [intros Hst; split; [done |]; intros k Tile d Hk; discriminate | by intros []].
  - rewrite IH, check_tile_valid. split.
    + intros [[Hst HT] Hrest]. split; [done |].
      intros [| k] Tile d Hk; simpl in Hk; [inversion Hk; subst; apply HT | by eapply Hrest].
    + intros [Hst Hall]. split; [split; [done |] |].
      * intros d. by apply (Hall 0%nat).
      * intros k Tile d Hk. by apply (Hall (S k)).
Qed.

Lemma check_tiles_log (tiles : list FTileType) (i : Z) (st : bool * list LogLine)
    (line : LogLine) :
  line ∈ (check_tiles cfg i tiles st).2 ↔
  line ∈ st.2 ∨
  ∃ (k : nat) Tile d,
    tiles !! k = Some Tile ∧ CompatibleEdges cfg !! edge d Tile = None ∧
    line = NoCompatibilityRule (i + Z.of_nat k) d.
Proof.
  revert i st. induction tiles as [| T rest IH]; intros i st; simpl.
  - split; [by left | intros [Hin | (k & Tile & d & Hk & _)]; [done | discriminate]].
  - rewrite IH, check_tile_log. split.
    + intros [[Hin | (d & Hnone & ->)] | (k & Tile & d & Hk & Hnone & ->)].
      * by left.
      * right. exists 0%nat, T, d. repeat split; [done |]. f_equal. lia.
      * right. exists (S k), Tile, d. repeat split; [done | done |]. f_equal. lia.
    + intros [Hin | (k & Tile & d & Hk & Hnone & ->)]; [by left; left |].
      destruct k as [| k]; simpl in Hk.
      * inversion Hk; subst. left; right. exists d. split; [done |]. f_equal. lia.
      * right. exists k, Tile, d. repeat split; [done | done |]. f_equal. lia.
Qed.

Lemma check_pairs_valid (pairs : list (ETileEdgeType * ETileEdgeType))
    (st : bool * list LogLine) :
  (foldl (check_pair cfg) st pairs).1 = true ↔
  st.1 = true ∧
  ∀ Pair, Pair ∈ pairs → CompatibleEdges cfg !! Pair.2 = Some Pair.1.
Proof.
  revert st. induction pairs as [| p rest IH]; intros st; simpl.
  - split; [intros Hst; split; [done |]; intros Pair HP; by apply elem_of_nil in HP
           | by intros []].
  - rewrite IH. unfold check_pair. case_bool_decide as Hp; simpl.
    + split.
      * intros [Hst Hrest]. split; [done |]. intros Pair HP.
        apply elem_of_cons in HP as [-> | HP]; [done | by apply Hrest].
      * intros [Hst Hall]. split; [done |]. intros Pair HP. apply Hall. by right.
    + split; [by intros [] |]. intros [_ Hall]. destruct Hp. apply Hall. by left.
Qed.

Lemma check_pairs_log (pairs : list (ETileEdgeType * ETileEdgeType))
    (st : bool * list LogLine) (line : LogLine) :
  line ∈ (foldl (check_pair cfg) st pairs).2 ↔
  line ∈ st.2 ∨
  ∃ Pair, Pair ∈ pairs ∧ CompatibleEdges cfg !! Pair.2 ≠ Some Pair.1 ∧
    line = NotSymmetric Pair.1 Pair.2 (CompatibleEdges cfg !! Pair.2).
Proof.
  revert st. induction pairs as [| p rest IH]; intros st; simpl.
  - split; [by left | intros [Hin | (Pair & HP & _)]; [done | by apply elem_of_nil in HP]].
  - rewrite IH. unfold check_pair. case_bool_decide as Hp; simpl.
    + split.
      * intros [Hin | (Pair & HP & Hne & ->)]; [by left |].
        right. exists Pair. split; [by right | done].
      * intros [Hin | (Pair & HP & Hne & ->)]; [by left |].
        apply elem_of_cons in HP as [-> | HP]; [done |].
        right. by exists Pair.
    + rewrite elem_of_app, list_elem_of_singleton. split.
      * intros [[Hin | ->] | (Pair & HP & Hne & ->)].
        -- by left.
        -- right. exists p. split; [by left | done].
        -- right. exists Pair. split; [by right | done].
      * intros [Hin | (Pair & HP & Hne & ->)]; [by left; left |].
        apply elem_of_cons in HP as [-> | HP]; [left; by right |].
        right. by exists Pair.
Qed.

Lemma check_tile_invalid (i : Z) (Tile : FTileType) (st : bool * list LogLine) :
  (check_tile cfg i Tile st).1 = false →
  st.1 = false ∨ ∃ d, CompatibleEdges cfg !! edge d Tile = None.
Proof.
  unfold check_tile, check_edge.
  destruct (CompatibleEdges cfg !! edge North Tile) eqn:EN; [| right; by exists North].
  destruct (CompatibleEdges cfg !! edge East Tile) eqn:EE; [| right; by exists East].
  destruct (CompatibleEdges cfg !! edge South Tile) eqn:ES; [| right; by exists South].
  destruct (CompatibleEdges cfg !! edge West Tile) eqn:EW; [| right; by exists West].
  by left.
Qed.

Lemma check_tiles_invalid (tiles : list FTileType) (i : Z) (st : bool * list LogLine) :
  (check_tiles cfg i tiles st).1 = false →
  st.1 = false ∨
  ∃ (k : nat) Tile d,
    tiles !! k = Some Tile ∧ CompatibleEdges cfg !! edge d Tile = None.
Proof.
  revert i st. induction tiles as [| T rest IH]; intros i st; simpl; [by left |].
  intros Hbad. apply IH in Hbad as [Hbad | (k & Tile & d & Hk & Hnone)].
  - apply check_tile_invalid in Hbad as [Hst | [d Hnone]]; [by left |].
    right. by exists 0%nat, T, d.
  - right. by exists (S k), Tile, d.
Qed.

Lemma check_pairs_invalid (pairs : list (ETileEdgeType * ETileEdgeType))
    (st : bool * list LogLine) :
  (foldl (check_pair cfg) st pairs).1 = false →
  st.1 = false ∨
  ∃ Pair, Pair ∈ pairs ∧ CompatibleEdges cfg !! Pair.2 ≠ Some Pair.1.
Proof.
  revert st. induction pairs as [| p rest IH]; intros st; simpl; [by left |].
  intros Hbad. apply IH in Hbad as [Hbad | (Pair & HP & Hne)].
  - unfold check_pair in Hbad. case_bool_decide as Hp; [by left |].
    right. exists p. split; [by left | done].
  - right. exists Pair. split; [by right | done].
Qed.

(** The result on a catalog that is not empty. *)
Lemma ValidateEdgeRules_nonempty :
  TileTypes cfg ≠ [] →
  ValidateEdgeRules cfg =
    foldl (check_pair cfg) (check_tiles cfg 0 (TileTypes cfg) (true, []))
      (map_to_list (CompatibleEdges cfg)).
Proof.
  intros Hne. unfold ValidateEdgeRules.
  destruct (TileTypes cfg) as [| T rest]; [done |].
  replace (Num (T :: rest) =? 0) with false; [done |].
  symmetry. apply Z.eqb_neq. unfold Num. simpl. lia.
Qed.

Lemma ValidateEdgeRules_empty :
  TileTypes cfg = [] → ValidateEdgeRules cfg = (false, [NoTileTypes]).
Proof. intros Hnil. unfold ValidateEdgeRules. by rewrite Hnil. Qed.

(** Validation succeeds exactly on a catalog that is not empty, whose
    labels all have a rule, with a table that maps every value back. *)
Lemma ValidateEdgeRules_true :
  (ValidateEdgeRules cfg).1 = true ↔
  TileTypes cfg ≠ [] ∧
  (∀ i d, ¬ missing_rule cfg i d) ∧
  (∀ Edge1 Edge2, ¬ asymmetric_pair cfg Edge1 Edge2).
Proof.
  destruct (decide (TileTypes cfg = [])) as [Hnil | Hne].
  { rewrite ValidateEdgeRules_empty by done. simpl. split; [discriminate | by intros []]. }
  rewrite ValidateEdgeRules_nonempty by done.
  rewrite check_pairs_valid, check_tiles_valid. simpl. split.
  - intros [[_ Htiles] Hpairs]. split; [done |]. split.
    + intros i d (Tile & Hi & Hnone).
      destruct (Htiles i Tile d Hi) as [x Hx]. congruence.
    + intros Edge1 Edge2 [H12 H21]. apply H21.
      apply (Hpairs (Edge1, Edge2)). by apply elem_of_map_to_list.
  - intros (_ & Hmiss & Hasym). split; [split; [done |] |].
    + intros k Tile d Hk.
      destruct (CompatibleEdges cfg !! edge d Tile) eqn:E; [by eexists |].
      destruct (Hmiss k d). by exists Tile.
    + intros [Edge1 Edge2] HP. apply elem_of_map_to_list in HP. simpl.
      destruct (decide (CompatibleEdges cfg !! Edge2 = Some Edge1)) as [Hok | Hbad];
        [done |].
      by destruct (Hasym Edge1 Edge2).
Qed.

(** On a catalog that is not empty nothing is left out of the log. *)
Lemma ValidateEdgeRules_complete :
  TileTypes cfg ≠ [] → reports_all_defects cfg.
Proof.
  intros Hne. unfold reports_all_defects.
  rewrite ValidateEdgeRules_nonempty by done.
  split; [done |]. split.
  - intros i d (Tile & Hi & Hnone).
    apply check_pairs_log. left. apply check_tiles_log. right.
    exists i, Tile, d. repeat split; try done.
  - intros Edge1 Edge2 [H12 H21].
    apply check_pairs_log. right. exists (Edge1, Edge2).
    split; [by apply elem_of_map_to_list | done].
Qed.

End ValidationFacts.

(** C7, as the code has it.  [ValidateEdgeRules] fails exactly when the
    catalog is empty, or a tile has an edge label without a rule, or an
    entry of the table does not map back.  When the catalog is not empty,
    every such defect is in the log of the same call; when it is empty, the
    call returns at once and the log holds that one line. *)
Theorem ValidateEdgeRules_spec (cfg : Config) :
  ((ValidateEdgeRules cfg).1 = false ↔
     TileTypes cfg = [] ∨
     (∃ i d, missing_rule cfg i d) ∨
     (∃ Edge1 Edge2, asymmetric_pair cfg Edge1 Edge2)) ∧
  (TileTypes cfg ≠ [] → reports_all_defects cfg) ∧
  (TileTypes cfg = [] → (ValidateEdgeRules cfg).2 = [NoTileTypes]).
Proof.
  split; [| split].
  - split.
    + intros Hbad.
      destruct (decide (TileTypes cfg = [])) as [Hnil | Hne]; [by left |]. right.
      rewrite ValidateEdgeRules_nonempty in Hbad by done.
      apply check_pairs_invalid in Hbad as [Hbad | ([Edge1 Edge2] & HP & Hback)].
      * apply check_tiles_invalid in Hbad as [Hbad | (i & Tile & d & Hi & Hnone)];
          [discriminate |].
        left. exists i, d, Tile. by split.
      * right. exists Edge1, Edge2. split; [| done]. by apply elem_of_map_to_list.
    + intros Hdefect. apply not_true_iff_false. rewrite ValidateEdgeRules_true.
      intros (Hne & Hmiss & Hasym).
      destruct Hdefect as [Hnil | [(i & d & Hm) | (Edge1 & Edge2 & Ha)]].
      * done.
      * by apply (Hmiss i d).
      * by apply (Hasym Edge1 Edge2).
  - apply ValidateEdgeRules_complete.
  - intros Hnil. by rewrite ValidateEdgeRules_empty.
Qed.

(** C7 in the specification's wording fails: with an empty catalog and the one-way
    entry [Type_A -> Type_B] validation fails, but the one-way entry is not
    in the log. *)
Lemma ValidateEdgeRules_stops_at_empty_catalog :
  (ValidateEdgeRules empty_one_way).1 = false ∧
  asymmetric_pair empty_one_way Type_A Type_B ∧
  ¬ reports_all_defects empty_one_way.
Proof.
  split; [reflexivity |].
  assert (Hasym : asymmetric_pair empty_one_way Type_A Type_B).
  { split; [reflexivity | discriminate]. }
  split; [exact Hasym |].
  intros (_ & _ & Hall). specialize (Hall Type_A Type_B Hasym).
  vm_compute in Hall. apply list_elem_of_singleton in Hall. discriminate.
Qed.

(** ** Termination of one propagation

    Every update that reports a change removes at least one candidate from
    the grid, and only such an update adds an index to the queue: the number
    of candidates plus the length of the queue decreases with every turn of
    the loop. *)

Lemma total_candidates_insert (Grid : list FCell) (i : nat) (Cell Cell' : FCell) :
  Grid !! i = Some Cell →
  (total_candidates (<[i := Cell']> Grid) + length (PossibleStates Cell)
   = total_candidates Grid + length (PossibleStates Cell'))%nat.
Proof.
  revert i. induction Grid as [| c rest IH]; intros i Hl; [discriminate |].
  destruct i as [| i]; simpl in *.
  - inversion Hl; subst. lia.
  - specialize (IH i Hl). lia.
Qed.

Lemma UpdateCellPossibilities_measure (Grid : list FCell) (CellIndex : Z)
    (AllowedStates : list Z) :
  (total_candidates (UpdateCellPossibilities Grid CellIndex AllowedStates).1
   + (if (UpdateCellPossibilities Grid CellIndex AllowedStates).2 then 1 else 0)
   ≤ total_candidates Grid)%nat.
Proof.
  destruct (UpdateCellPossibilities_cases Grid CellIndex AllowedStates)
    as [-> | (Cell & Hin & Hl & Hnc & ->)]; simpl; [lia |].
  pose proof (total_candidates_insert Grid (Z.to_nat CellIndex) Cell
    (narrowed Cell (filter_allowed AllowedStates (PossibleStates Cell))) Hl) as Hsum.
  destruct (narrowed_shrinks Cell AllowedStates Hnc) as [Hsub _].
  apply sublist_length in Hsub.
  destruct (Num (PossibleStates Cell) =? _) eqn:E; simpl; [lia |].
  apply Z.eqb_neq in E. unfold Num in E. lia.
Qed.

Lemma UpdateCellPossibilities_length (Grid : list FCell) (CellIndex : Z)
    (AllowedStates : list Z) :
  length (UpdateCellPossibilities Grid CellIndex AllowedStates).1 = length Grid.
Proof.
  destruct (UpdateCellPossibilities_cases Grid CellIndex AllowedStates)
    as [-> | (Cell & Hin & Hl & Hnc & ->)]; simpl; [done |]. apply length_insert.
Qed.

Lemma UpdateCellPossibilities_changed (Grid : list FCell) (CellIndex : Z)
    (AllowedStates : list Z) :
  (UpdateCellPossibilities Grid CellIndex AllowedStates).2 = true →
  0 ≤ CellIndex < Num Grid.
Proof.
  destruct (UpdateCellPossibilities_cases Grid CellIndex AllowedStates)
    as [-> | (Cell & Hin & Hl & Hnc & ->)]; simpl; [discriminate | done].
Qed.

Lemma length_AddUnique (l : list Z) (x : Z) :
  (length (AddUnique l x) ≤ length l + 1)%nat.
Proof. unfold AddUnique. case_bool_decide; [lia |]. rewrite length_app. simpl. lia. Qed.

Lemma elem_of_AddUnique (l : list Z) (x y : Z) :
  y ∈ AddUnique l x ↔ y ∈ l ∨ y = x.
Proof.
  unfold AddUnique. case_bool_decide as Hx.
  - split; [by left | intros [Hy | ->]; done].
  - by rewrite elem_of_app, list_elem_of_singleton.
Qed.

Section PropagationRuns.
Variable cfg : Config.

Lemma allowed_states_not_OutOfFuel (d : Direction) (States Allowed : list Z) :
  allowed_states cfg d States Allowed ≠ OutOfFuel.
Proof.
  revert Allowed. induction States as [| s rest IH]; intros Allowed; simpl; [done |].
  intros Hto. apply bind_OutOfFuel in Hto as [Hto | (Tile & _ & Hto)]; [| by eapply IH].
  unfold at_index in Hto. case_bool_decide; [| done].
  by destruct (TileTypes cfg !! Z.to_nat s).
Qed.

Lemma at_index_not_OutOfFuel {A : Type} (l : list A) (i : Z) : at_index l i ≠ OutOfFuel.
Proof. unfold at_index. case_bool_decide; [| done]. by destruct (l !! Z.to_nat i). Qed.

Lemma process_neighbor_not_OutOfFuel (d : Direction) (Cur X Y : Z)
    (st : list FCell * list Z) :
  process_neighbor cfg d Cur X Y st ≠ OutOfFuel.
Proof.
  unfold process_neighbor. destruct (has_neighbor cfg d X Y); [| done].
  intros Hto. apply bind_OutOfFuel in Hto as [Hto | (c & _ & Hto)];
    [by eapply at_index_not_OutOfFuel |].
  apply bind_OutOfFuel in Hto as [Hto | (A & _ & Hto)];
    [by eapply allowed_states_not_OutOfFuel | done].
Qed.

Lemma propagate_step_not_OutOfFuel (Cur : Z) (st : list FCell * list Z) :
  propagate_step cfg Cur st ≠ OutOfFuel.
Proof.
  unfold propagate_step. intros Hto.
  apply bind_OutOfFuel in Hto as [Hto | (XY & _ & Hto)].
  { unfold IndexToXY in Hto. by destruct (GridWidth cfg =? 0). }
  apply bind_OutOfFuel in Hto as [Hto | (c & _ & Hto)];
    [by eapply at_index_not_OutOfFuel |].
  apply bind_OutOfFuel in Hto as [Hto | (st1 & _ & Hto)];
    [by eapply process_neighbor_not_OutOfFuel |].
  apply bind_OutOfFuel in Hto as [Hto | (st2 & _ & Hto)];
    [by eapply process_neighbor_not_OutOfFuel |].
  apply bind_OutOfFuel in Hto as [Hto | (st3 & _ & Hto)];
    by eapply process_neighbor_not_OutOfFuel.
Qed.

(** What one block does to the length of the grid, to the queue and to
    the measure. *)
Lemma process_neighbor_sound (d : Direction) (Cur X Y : Z)
    (st st' : list FCell * list Z) :
  process_neighbor cfg d Cur X Y st = Ret st' →
  length st'.1 = length st.1 ∧
  (queue_ok st.1 st.2 → queue_ok st'.1 st'.2) ∧
  (total_candidates st'.1 + length st'.2 ≤ total_candidates st.1 + length st.2)%nat.
Proof.
  unfold process_neighbor. destruct (has_neighbor cfg d X Y); [| by intros [= <-]].
  intros Hrun. apply bind_Ret in Hrun as (CurrentCell & _ & Hrun).
  apply bind_Ret in Hrun as (Allowed & _ & Hrun).
  inversion Hrun; subst; clear Hrun. simpl.
  pose proof (UpdateCellPossibilities_measure st.1 (neighbor_index cfg d X Y) Allowed) as Hm.
  pose proof (UpdateCellPossibilities_length st.1 (neighbor_index cfg d X Y) Allowed) as Hlen.
  pose proof (UpdateCellPossibilities_changed st.1 (neighbor_index cfg d X Y) Allowed) as Hch.
  destruct (UpdateCellPossibilities st.1 (neighbor_index cfg d X Y) Allowed) as [g changed].
  simpl in *. split; [done |]. split.
  - unfold queue_ok, Num. rewrite Hlen. intros Hq. destruct changed; [| done].
    apply Forall_forall. intros y Hy. apply elem_of_AddUnique in Hy as [Hy | ->].
    + rewrite Forall_forall in Hq. by apply Hq.
    + by apply Hch.
  - destruct changed; [| lia].
    pose proof (length_AddUnique st.2 (neighbor_index cfg d X Y)). lia.
Qed.

Lemma propagate_step_sound (Cur : Z) (st st' : list FCell * list Z) :
  propagate_step cfg Cur st = Ret st' →
  length st'.1 = length st.1 ∧
  (queue_ok st.1 st.2 → queue_ok st'.1 st'.2) ∧
  (total_candidates st'.1 + length st'.2 ≤ total_candidates st.1 + length st.2)%nat.
Proof.
  unfold propagate_step. intros Hrun.
  apply bind_Ret in Hrun as (XY & _ & Hrun).
  apply bind_Ret in Hrun as (c & _ & Hrun).
  apply bind_Ret in Hrun as (st1 & H1 & Hrun).
  apply bind_Ret in Hrun as (st2 & H2 & Hrun).
  apply bind_Ret in Hrun as (st3 & H3 & H4).
  apply process_neighbor_sound in H1 as (L1 & Q1 & M1).
  apply process_neighbor_sound in H2 as (L2 & Q2 & M2).
  apply process_neighbor_sound in H3 as (L3 & Q3 & M3).
  apply process_neighbor_sound in H4 as (L4 & Q4 & M4).
  split; [congruence |]. split; [tauto | lia].
Qed.

(** The budget is never the reason a propagation stops. *)
Lemma propagate_loop_not_OutOfFuel (fuel : nat) (Grid : list FCell) (Queue : list Z) :
  (total_candidates Grid + length Queue ≤ fuel)%nat →
  propagate_loop cfg fuel Grid Queue ≠ OutOfFuel.
Proof.
  revert Grid Queue. induction fuel as [| fuel IH]; intros Grid Queue Hfuel.
  - destruct Queue; simpl in *; [done | lia].
  - destruct Queue as [| Cur Queue]; simpl in *; [done |].
    intros Hto. apply bind_OutOfFuel in Hto as [Hto | (st & Hstep & Hto)];
      [by eapply propagate_step_not_OutOfFuel |].
    apply propagate_step_sound in Hstep as (_ & _ & Hm). simpl in Hm.
    eapply IH; [| exact Hto]. lia.
Qed.

(** *** Normal return under the cell invariant *)

Hypothesis width_nonzero : GridWidth cfg ≠ 0.

Lemma allowed_states_runs (d : Direction) (States Allowed : list Z) :
  (∀ State, State ∈ States → 0 ≤ State < Num (TileTypes cfg)) →
  ∃ Allowed', allowed_states cfg d States Allowed = Ret Allowed'.
Proof.
  revert Allowed. induction States as [| s rest IH]; intros Allowed Hrange; simpl.
  - by eexists.
  - destruct (at_index_in_range (TileTypes cfg) s) as (Tile & -> & _).
    { apply Hrange. by left. }
    simpl. apply IH. intros State HState. apply Hrange. by right.
Qed.

Lemma process_neighbor_runs (d : Direction) (Cur X Y : Z) (st : list FCell * list Z) :
  grid_ok (Num (TileTypes cfg)) st.1 → 0 ≤ Cur < Num st.1 →
  ∃ st', process_neighbor cfg d Cur X Y st = Ret st'.
Proof.
  intros Hok Hcur. unfold process_neighbor.
  destruct (has_neighbor cfg d X Y); [| by eexists].
  destruct (at_index_in_range st.1 Cur Hcur) as (CurrentCell & -> & Hl). simpl.
  destruct (allowed_states_runs d (PossibleStates CurrentCell) []) as [Allowed ->].
  { unfold grid_ok in Hok. rewrite Forall_lookup in Hok. apply (Hok _ _ Hl). }
  simpl. by eexists.
Qed.

Lemma propagate_step_runs (Cur : Z) (st : list FCell * list Z) :
  grid_ok (Num (TileTypes cfg)) st.1 → 0 ≤ Cur < Num st.1 →
  ∃ st', propagate_step cfg Cur st = Ret st'.
Proof.
  intros Hok Hcur. unfold propagate_step, IndexToXY.
  replace (GridWidth cfg =? 0) with false by (symmetry; by apply Z.eqb_neq).
  simpl. destruct (at_index_in_range st.1 Cur Hcur) as (c & -> & _). simpl.
  set (X := Z.rem Cur (GridWidth cfg)). set (Y := Cur ÷ GridWidth cfg).
  assert (Hnext : ∀ d s, grid_ok (Num (TileTypes cfg)) s.1 → 0 ≤ Cur < Num s.1 →
            ∃ s', process_neighbor cfg d Cur X Y s = Ret s' ∧
                  grid_ok (Num (TileTypes cfg)) s'.1 ∧ 0 ≤ Cur < Num s'.1).
  { intros d s Hs Hc. destruct (process_neighbor_runs d Cur X Y s Hs Hc) as [s' Hs'].
    exists s'. split; [done |]. split.
    - eapply (process_neighbor_preserves cfg (grid_ok (Num (TileTypes cfg))));
        [| exact Hs | exact Hs'].
      intros *. apply UpdateCellPossibilities_ok.
    - apply process_neighbor_sound in Hs' as (Hlen & _). unfold Num in *.
      rewrite Hlen. done. }
  destruct (Hnext North st Hok Hcur) as (st1 & -> & Hok1 & Hcur1). simpl.
  destruct (Hnext East st1 Hok1 Hcur1) as (st2 & -> & Hok2 & Hcur2). simpl.
  destruct (Hnext South st2 Hok2 Hcur2) as (st3 & -> & Hok3 & Hcur3). simpl.
  destruct (Hnext West st3 Hok3 Hcur3) as (st4 & -> & _). by eexists.
Qed.

Lemma propagate_loop_runs (fuel : nat) (Grid : list FCell) (Queue : list Z) :
  grid_ok (Num (TileTypes cfg)) Grid → queue_ok Grid Queue →
  (total_candidates Grid + length Queue ≤ fuel)%nat →
  ∃ Grid', propagate_loop cfg fuel Grid Queue = Ret Grid'.
Proof.
  revert Grid Queue. induction fuel as [| fuel IH]; intros Grid Queue Hok Hq Hfuel.
  - destruct Queue; simpl in *; [by eexists | lia].
  - destruct Queue as [| Cur Queue]; simpl in *; [by eexists |].
    apply Forall_cons in Hq as [Hcur Hq].
    destruct (propagate_step_runs Cur (Grid, Queue) Hok Hcur) as [st Hstep].
    rewrite Hstep. simpl.
    pose proof (propagate_step_sound _ _ _ Hstep) as (Hlen & Hq' & Hm). simpl in *.
    apply IH; [| by apply Hq' | lia].
    eapply (propagate_step_preserves cfg (grid_ok (Num (TileTypes cfg))));
      [| | exact Hstep]; [| done].
    intros *. apply UpdateCellPossibilities_ok.
Qed.

Lemma PropagateConstraints_runs (fuel : nat) (Grid : list FCell) (CellIndex : Z) :
  grid_ok (Num (TileTypes cfg)) Grid →
  (total_candidates Grid < fuel)%nat →
  ∃ Grid', PropagateConstraints cfg fuel Grid CellIndex = Ret Grid'.
Proof.
  intros Hok Hfuel. unfold PropagateConstraints.
  destruct (CellIndex <? 0) eqn:E1; simpl; [by eexists |].
  destruct (Num Grid <=? CellIndex) eqn:E2; simpl; [by eexists |].
  apply propagate_loop_runs; [done | | simpl; lia].
  apply Forall_cons. split; [lia | apply Forall_nil_2].
Qed.

End PropagationRuns.

(** ** The budget only has to be large enough *)

Section FuelMonotone.
Context {R : Type} `{RandomSource R}.
Variable cfg : Config.





End FuelMonotone.

(** ** Machine arithmetic *)

Lemma wrap32_id (z : Z) : -2147483648 ≤ z ≤ INT32_MAX → wrap32 z = z.
Proof. unfold wrap32, INT32_MAX. intros Hz. rewrite Z.mod_small; lia. Qed.

Lemma wrap32_range (z : Z) : -2147483648 ≤ wrap32 z ≤ INT32_MAX.
Proof.
  unfold wrap32, INT32_MAX.
  pose proof (Z.mod_pos_bound (z + 2147483648) 4294967296). lia.
Qed.

Lemma wrap32_le (z : Z) : 0 ≤ z → wrap32 z ≤ z.
Proof.
  unfold wrap32. intros Hz.
  pose proof (Z.mod_le (z + 2147483648) 4294967296). lia.
Qed.

(** ** What the scan finds *)

Lemma FindCellWithLowestEntropy_found (Grid : list FCell) :
  FindCellWithLowestEntropy Grid ≠ -1 →
  ∃ Cell,
    0 ≤ FindCellWithLowestEntropy Grid < Num Grid ∧
    Grid !! Z.to_nat (FindCellWithLowestEntropy Grid) = Some Cell ∧
    eligible Cell.
Proof.
  unfold FindCellWithLowestEntropy.
  destruct (entropy_scan_spec Grid 0 (-1, INT32_MAX))
    as [[Heq _] | (k & Cell & Hk & Helig & Heq & _)]; rewrite Heq; simpl; [done |].
  intros _. exists Cell. pose proof (lookup_lt_Some _ _ _ Hk).
  split; [unfold Num; lia |].
  by replace (Z.to_nat (0 + Z.of_nat k)) with k by lia.
Qed.

Lemma FindCellWithLowestEntropy_none (Grid : list FCell) :
  Forall (λ Cell, Num (PossibleStates Cell) < INT32_MAX) Grid →
  FindCellWithLowestEntropy Grid = -1 →
  ∀ j C, Grid !! j = Some C → ¬ eligible C.
Proof.
  intros Hbound. unfold FindCellWithLowestEntropy.
  destruct (entropy_scan_spec Grid 0 (-1, INT32_MAX))
    as [[Heq Hmin] | (k & Cell & Hk & Helig & Heq & _)]; rewrite Heq; simpl; [| lia].
  intros _ j C Hj HC. specialize (Hmin j C Hj HC). simpl in Hmin.
  rewrite Forall_lookup in Hbound. specialize (Hbound j C Hj). simpl in Hbound. lia.
Qed.

Lemma IsGridFullyCollapsed_false (Grid : list FCell) :
  IsGridFullyCollapsed Grid = false →
  ∃ i Cell, Grid !! i = Some Cell ∧ bIsCollapsed Cell = false.
Proof.
  induction Grid as [| c rest IH]; simpl; [discriminate |].
  destruct (bIsCollapsed c) eqn:Hc; simpl.
  - intros Hrest. destruct (IH Hrest) as (i & Cell & Hi & HCell).
    by exists (S i), Cell.
  - intros _. by exists 0%nat, c.
Qed.

Lemma IsGridFullyCollapsed_true (Grid : list FCell) :
  IsGridFullyCollapsed Grid = true ↔ Forall (λ Cell, bIsCollapsed Cell = true) Grid.
Proof.
  induction Grid as [| c rest IH]; simpl; [split; [by constructor | done] |].
  rewrite Forall_cons, <- IH. destruct (bIsCollapsed c); simpl; [tauto |].
  split; [discriminate | by intros []].
Qed.

(** ** The bounds that hold during a run *)

Lemma grid_live_ok (tileCount : Z) (Grid : list FCell) :
  grid_live tileCount Grid → grid_ok tileCount Grid.
Proof. intros Hlive. eapply Forall_impl; [exact Hlive |]. by intros Cell []. Qed.

Lemma grid_live_total (tileCount : Z) (Grid : list FCell) :
  grid_live tileCount Grid →
  (total_candidates Grid ≤ length Grid * Z.to_nat tileCount)%nat.
Proof.
  induction 1 as [| c rest [_ Hc] _ IH]; simpl; [lia |]. unfold Num in Hc. lia.
Qed.

Lemma narrowed_live (tileCount : Z) (Cell : FCell) (AllowedStates : list Z) :
  cell_live tileCount Cell → bIsCollapsed Cell = false →
  cell_live tileCount (narrowed Cell (filter_allowed AllowedStates (PossibleStates Cell))).
Proof.
  intros [Hok Hnum] Hnc. split; [by apply narrowed_ok |].
  rewrite narrowed_PossibleStates.
  pose proof (filter_allowed_sublist AllowedStates (PossibleStates Cell)) as Hsub.
  apply sublist_length in Hsub.
  destruct (0 <? Num (filter_allowed AllowedStates (PossibleStates Cell))) eqn:E; [| done].
  apply Z.ltb_lt in E. unfold Num in *. lia.
Qed.

Lemma UpdateCellPossibilities_live (tileCount : Z) (Grid : list FCell)
    (CellIndex : Z) (AllowedStates : list Z) :
  grid_live tileCount Grid →
  grid_live tileCount (UpdateCellPossibilities Grid CellIndex AllowedStates).1.
Proof.
  intros Hlive.
  destruct (UpdateCellPossibilities_cases Grid CellIndex AllowedStates)
    as [-> | (Cell & Hin & Hl & Hnc & ->)]; simpl; [done |].
  apply Forall_insert; [done |]. apply narrowed_live; [| done].
  unfold grid_live in Hlive. rewrite Forall_lookup in Hlive. by apply (Hlive _ _ Hl).
Qed.

Lemma CollapseCell_live {R : Type} `{RandomSource R} (tileCount : Z)
    (Grid : list FCell) (rng : R) (CellIndex : Z) (Grid' : list FCell) (rng' : R) :
  grid_live tileCount Grid → CollapseCell Grid rng CellIndex = Ret (Grid', rng') →
  grid_live tileCount Grid'.
Proof.
  intros Hlive Hrun.
  apply CollapseCell_Ret in Hrun
    as [[-> _] | (Cell & s & Hin & Hl & Hnc & Hs & ->)]; [done |].
  apply Forall_insert; [done |].
  unfold grid_live in Hlive. rewrite Forall_lookup in Hlive.
  destruct (Hlive _ _ Hl) as [[Hrange _] _]. specialize (Hrange s Hs).
  split; [by apply collapsed_to_ok |]. unfold Num. simpl. lia.
Qed.

Lemma InitGrid_live (cfg : Config) (Grid0 : list FCell) :
  TileTypes cfg ≠ [] → InitGrid cfg = Ret Grid0 →
  grid_live (Num (TileTypes cfg)) Grid0.
Proof.
  intros Hne Hinit. pose proof (InitGrid_ok cfg Grid0 Hinit) as Hok.
  apply InitGrid_Ret in Hinit as [_ ->].
  apply Forall_replicate. split.
  - split; simpl; [| discriminate]. intros State. by rewrite elem_of_all_states.
  - simpl. unfold Num. rewrite length_all_states.
    destruct (TileTypes cfg); [done |]. simpl. lia.
Qed.

(** ** Termination of the solve loop *)

Section SolveRuns.
Context {R : Type} `{RandomSource R}.
Variable cfg : Config.
Hypothesis draws_in_range : RandRange_in_range R.
Hypothesis width_nonzero : GridWidth cfg ≠ 0.
Hypothesis catalog_bound : Num (TileTypes cfg) < INT32_MAX.

Lemma solve_loop_runs (fuel : nat) (Grid : list FCell) (rng : R) (k : Z) :
  grid_live (Num (TileTypes cfg)) Grid → 0 ≤ k →
  (length Grid * length (TileTypes cfg) + 1 + Z.to_nat (MaxIterations cfg - k)
   ≤ fuel)%nat →
  ∃ Grid' rng' k',
    solve_loop cfg fuel Grid rng k = Ret (Grid', rng', k') ∧
    length Grid' = length Grid ∧
    k ≤ k' ≤ Z.max k (MaxIterations cfg) ∧
    (IsGridFullyCollapsed Grid' = true ∨ MaxIterations cfg ≤ k').
Proof.
  revert Grid rng k. induction fuel as [| fuel IH]; intros Grid rng k Hlive Hk Hfuel;
    [lia |].
  simpl.
  destruct (negb (IsGridFullyCollapsed Grid) && (k <? MaxIterations cfg)) eqn:Hcond.
  2:{ exists Grid, rng, k. split; [done |]. split; [done |]. split; [lia |].
      apply andb_false_iff in Hcond as [Hfull | Hcap].
      - left. by apply negb_false_iff.
      - right. by apply Z.ltb_ge. }
  apply andb_true_iff in Hcond as [Hfull Hcap].
  apply negb_true_iff in Hfull. apply Z.ltb_lt in Hcap.
  destruct (FindCellWithLowestEntropy Grid =? -1) eqn:Hfind.
  { (* the scan cannot come back empty-handed *)
    exfalso. apply Z.eqb_eq in Hfind.
    apply IsGridFullyCollapsed_false in Hfull as (i & Cell & Hi & HCell).
    refine (FindCellWithLowestEntropy_none Grid _ Hfind i Cell Hi _).
    - eapply Forall_impl; [exact Hlive |]. intros c [_ Hc]. simpl. lia.
    - unfold grid_live in Hlive. rewrite Forall_lookup in Hlive.
      destruct (Hlive i Cell Hi) as [_ Hnum]. split; [done | lia]. }
  apply Z.eqb_neq in Hfind.
  destruct (FindCellWithLowestEntropy_found Grid Hfind) as (Cell & Hin & Hl & Hnc & Hpos).
  destruct (CollapseCell_draws Grid rng (FindCellWithLowestEntropy Grid) Cell)
    as (ChosenState & _ & Hcollapse); try done; [lia |].
  rewrite Hcollapse. simpl.
  set (Grid1 := <[Z.to_nat (FindCellWithLowestEntropy Grid) := collapsed_to ChosenState]> Grid).
  set (rng1 := (RandRange rng 0 (Num (PossibleStates Cell) - 1)).2).
  assert (Hlive1 : grid_live (Num (TileTypes cfg)) Grid1)
    by (by eapply CollapseCell_live).
  assert (Hlen1 : length Grid1 = length Grid) by apply length_insert.
  pose proof (grid_live_total _ _ Hlive1) as Htotal.
  replace (Z.to_nat (Num (TileTypes cfg))) with (length (TileTypes cfg)) in Htotal
    by (unfold Num; lia).
  destruct (PropagateConstraints_runs cfg width_nonzero (S fuel) Grid1
              (FindCellWithLowestEntropy Grid)) as [Grid2 Hprop].
  { by apply grid_live_ok. }
  { rewrite Hlen1 in Htotal. lia. }
  rewrite Hprop. simpl.
  assert (Hlive2 : grid_live (Num (TileTypes cfg)) Grid2).
  { eapply (PropagateConstraints_preserves cfg (grid_live (Num (TileTypes cfg))));
      [| exact Hlive1 | exact Hprop].
    intros *. apply UpdateCellPossibilities_live. }
  assert (Hlen2 : length Grid2 = length Grid).
  { eapply (PropagateConstraints_preserves cfg (λ g, length g = length Grid));
      [| exact Hlen1 | exact Hprop].
    intros g i A Hg. by rewrite UpdateCellPossibilities_length. }
  pose proof (wrap32_range (wrap32 (GridWidth cfg * GridHeight cfg) * 10)) as Hmax.
  fold (MaxIterations cfg) in Hmax.
  rewrite wrap32_id by lia.
  destruct (IH Grid2 rng1 (k + 1)) as (Grid' & rng' & k' & Hrun & Hlen & Hkk & Hexit);
    [done | lia | rewrite Hlen2; lia |].
  exists Grid', rng', k'. split; [done |]. split; [congruence |]. split; [lia | done].
Qed.

End SolveRuns.

(** C5.  For a configuration that passes validation, with positive width
    and height, a grid and a catalog within the sizes an [int32] count can
    tell apart ([GridWidth * GridHeight <= INT32_MAX], fewer than
    [INT32_MAX] tiles) and a generator that honours its bounds:
    [GenerateGrid] returns for every large enough budget, after at most
    [GridWidth * GridHeight * 10] turns of the solve loop, with a grid that
    is fully collapsed or else with the max-iterations warning as last line
    of the log.  And a single [PropagateConstraints] call never exhausts a
    budget larger than the number of candidates in the grid; it returns
    normally when the candidates are tile indices and the width is not 0. *)
Theorem generation_terminates {R : Type} `{RandomSource R} (cfg : Config) :
  RandRange_in_range R →
  0 < GridWidth cfg → 0 < GridHeight cfg →
  GridWidth cfg * GridHeight cfg ≤ INT32_MAX →
  Num (TileTypes cfg) < INT32_MAX →
  (ValidateEdgeRules cfg).1 = true →
  (∀ w : World R, ∃ N : nat, ∀ fuel : nat, (N ≤ fuel)%nat →
     ∃ (w' : World R) (iterations : Z),
       GenerateGrid cfg fuel w = Ret (w', iterations) ∧
       0 ≤ iterations ≤ GridWidth cfg * GridHeight cfg * 10 ∧
       Num (Grid w') = GridWidth cfg * GridHeight cfg ∧
       (IsGridFullyCollapsed (Grid w') = true ∨
        (MaxIterations cfg ≤ iterations ∧
         Log w' = Log w ++ (ValidateEdgeRules cfg).2
                    ++ [MaxIterationsReached (MaxIterations cfg)]))) ∧
  (∀ (Grid : list FCell) (CellIndex : Z) (fuel : nat),
     (total_candidates Grid < fuel)%nat →
     PropagateConstraints cfg fuel Grid CellIndex ≠ OutOfFuel ∧
     (grid_ok (Num (TileTypes cfg)) Grid →
      ∃ Grid', PropagateConstraints cfg fuel Grid CellIndex = Ret Grid')).
Proof.
  intros Hdraws Hw Hh Hcells Htiles Hvalid. split.
  - intros w.
    exists (Z.to_nat (GridWidth cfg * GridHeight cfg) * length (TileTypes cfg) + 1
            + Z.to_nat (MaxIterations cfg))%nat.
    intros fuel Hfuel.
    assert (Hne : TileTypes cfg ≠ []) by (by apply ValidateEdgeRules_true in Hvalid as []).
    assert (Hwrap : wrap32 (GridWidth cfg * GridHeight cfg) = GridWidth cfg * GridHeight cfg)
      by (apply wrap32_id; nia).
    destruct (InitGrid cfg) as [Grid0 | |] eqn:Hinit.
    2,3: unfold InitGrid, SetNum in Hinit; rewrite Hwrap in Hinit;
         replace (GridWidth cfg * GridHeight cfg <? 0) with false in Hinit
           by (symmetry; apply Z.ltb_ge; nia);
         discriminate.
    pose proof (InitGrid_live cfg Grid0 Hne Hinit) as Hlive.
    apply InitGrid_Ret in Hinit as Hshape. destruct Hshape as [_ Hshape].
    assert (Hlen0 : length Grid0 = Z.to_nat (GridWidth cfg * GridHeight cfg)).
    { rewrite Hshape, length_replicate. by rewrite Hwrap. }
    destruct (solve_loop_runs cfg Hdraws ltac:(lia) Htiles fuel Grid0 (Rand w) 0)
      as (Grid' & rng' & k' & Hrun & Hlen & Hkk & Hexit);
      [done | lia | rewrite Hlen0, Z.sub_0_r; lia |].
    unfold GenerateGrid. rewrite Hvalid, Hinit. simpl. rewrite Hrun. simpl.
    eexists _, k'. split; [reflexivity |]. simpl.
    assert (Hcap : MaxIterations cfg ≤ GridWidth cfg * GridHeight cfg * 10).
    { unfold MaxIterations. rewrite Hwrap. apply wrap32_le. nia. }
    split; [nia |]. split; [unfold Num; rewrite Hlen, Hlen0; nia |].
    destruct Hexit as [Hdone | Hcapped]; [by left |]. right. split; [done |].
    by replace (MaxIterations cfg <=? k') with true by (symmetry; by apply Z.leb_le).
  - intros Grid CellIndex fuel Hfuel. split.
    + unfold PropagateConstraints.
      destruct ((CellIndex <? 0) || (Num Grid <=? CellIndex)); [done |].
      apply propagate_loop_not_OutOfFuel. simpl. lia.
    + intros Hok. apply PropagateConstraints_runs; [lia | done | done].
Qed.

(** C8.  When validation fails, [GenerateGrid] returns with the grid and the
    generator as they were and an iteration count of 0, whatever the budget:
    the grid is not initialised, no cell is selected or collapsed (no number
    is drawn) and nothing is propagated.  The log receives the validation
    warnings and the error line. *)
Theorem GenerateGrid_rejects {R : Type} `{RandomSource R} (cfg : Config)
    (fuel : nat) (w : World R) :
  (ValidateEdgeRules cfg).1 = false →
  GenerateGrid cfg fuel w =
    Ret ({| Grid := Grid w; Rand := Rand w;
            Log := Log w ++ (ValidateEdgeRules cfg).2 ++ [InvalidRules] |}, 0).
Proof. intros Hinvalid. unfold GenerateGrid. by rewrite Hinvalid. Qed.

(** ** Reproducible runs

    The grid depends on the generator only through the numbers that
    [CollapseCell] draws: two sources, of whatever kind, that answer the
    same draws alike lead to the same grid. *)

Section SameDraws.
Context {R1 R2 : Type} `{RandomSource R1} `{RandomSource R2}.
Variable related : R1 → R2 → Prop.
Hypothesis same_draws : ∀ (rng1 : R1) (rng2 : R2) (Min Max : Z),
  related rng1 rng2 → Min ≤ Max →
  (RandRange rng1 Min Max).1 = (RandRange rng2 Min Max).1 ∧
  related (RandRange rng1 Min Max).2 (RandRange rng2 Min Max).2.




End SameDraws.


(** ** The statements at the sample configurations *)

Lemma FindCellWithLowestEntropy_correct_witness :
  FindCellWithLowestEntropy scan_sample = 2 ∧
  (FindCellWithLowestEntropy scan_sample = -1 ↔
     ∀ j C, scan_sample !! j = Some C → ¬ eligible C) ∧
  (FindCellWithLowestEntropy scan_sample ≠ -1 →
     ∃ Cell,
       0 ≤ FindCellWithLowestEntropy scan_sample < Num scan_sample ∧
       scan_sample !! Z.to_nat (FindCellWithLowestEntropy scan_sample) = Some Cell ∧
       eligible Cell ∧
       ∀ j C, scan_sample !! j = Some C → eligible C →
         Num (PossibleStates Cell) ≤ Num (PossibleStates C) ∧
         (Num (PossibleStates C) = Num (PossibleStates Cell) →
          FindCellWithLowestEntropy scan_sample ≤ Z.of_nat j)).
Proof.
  split; [reflexivity |].
  apply (FindCellWithLowestEntropy_correct scan_sample).
  repeat (apply Forall_cons; split; [reflexivity |]). apply Forall_nil_2.
Defined.

Lemma UpdateCellPossibilities_forced_witness :
  ∃ Cell',
    (UpdateCellPossibilities checkerboard_seeded 1 [1]).1 !! Z.to_nat 1 = Some Cell' ∧
    bIsCollapsed Cell' = true ∧
    FinalState Cell' = 1 ∧
    PossibleStates Cell' = [1] ∧
    (UpdateCellPossibilities checkerboard_seeded 1 [1]).1
      = <[Z.to_nat 1 := Cell']> checkerboard_seeded.
Proof.
  apply (UpdateCellPossibilities_forced checkerboard_seeded 1 [1] open_cell 1).
  - lia.
  - reflexivity.
  - reflexivity.
  - reflexivity.
Defined.

Lemma empty_intersection_ignored_witness :
  filter_allowed [1] (PossibleStates (mkCell [0] false (-1))) = [] ∧
  UpdateCellPossibilities checkerboard_stuck 1 [1] = (checkerboard_stuck, false) ∧
  process_neighbor checkerboard East 0 0 0 (checkerboard_stuck, [])
    = Ret (checkerboard_stuck, []).
Proof.
  split; [reflexivity |].
  destruct (empty_intersection_ignored checkerboard checkerboard_stuck 1 [1]
              (mkCell [0] false (-1))) as [Hupdate Hblock].
  - lia.
  - reflexivity.
  - reflexivity.
  - split; [exact Hupdate |].
    apply (Hblock East 0 0 0 (collapsed_to 0) []); reflexivity.
Defined.

Lemma propagation_only_shrinks_witness :
  propagate_all checkerboard 5 checkerboard_seeded [0] = Ret checkerboard_0110 ∧
  only_shrunk checkerboard_seeded checkerboard_0110.
Proof.
  split; [reflexivity |].
  apply (proj1 (propagation_only_shrinks checkerboard 5 checkerboard_seeded) [0]).
  reflexivity.
Defined.

Lemma generation_terminates_witness :
  (∀ w : World Z, ∃ N : nat, ∀ fuel : nat, (N ≤ fuel)%nat →
     ∃ (w' : World Z) (iterations : Z),
       GenerateGrid checkerboard fuel w = Ret (w', iterations) ∧
       0 ≤ iterations ≤ GridWidth checkerboard * GridHeight checkerboard * 10 ∧
       Num (Grid w') = GridWidth checkerboard * GridHeight checkerboard ∧
       (IsGridFullyCollapsed (Grid w') = true ∨
        (MaxIterations checkerboard ≤ iterations ∧
         Log w' = Log w ++ (ValidateEdgeRules checkerboard).2
                    ++ [MaxIterationsReached (MaxIterations checkerboard)]))) ∧
  (∀ (Grid : list FCell) (CellIndex : Z) (fuel : nat),
     (total_candidates Grid < fuel)%nat →
     PropagateConstraints checkerboard fuel Grid CellIndex ≠ OutOfFuel ∧
     (grid_ok (Num (TileTypes checkerboard)) Grid →
      ∃ Grid', PropagateConstraints checkerboard fuel Grid CellIndex = Ret Grid')).
Proof.
  apply (generation_terminates checkerboard).
  - intros rng Min Max Hle. unfold RandRange, counter_random. simpl.
    pose proof (Z.mod_pos_bound rng (Max - Min + 1)). lia.
  - reflexivity.
  - reflexivity.
  - discriminate.
  - reflexivity.
  - reflexivity.
Defined.

Lemma CollapseCell_spec_witness :
  ∃ (ChosenState : Z) (Grid' : list FCell) (rng' : Z) (Cell' : FCell),
    CollapseCell [open_cell; open_cell] 5 1 = Ret (Grid', rng') ∧
    ChosenState ∈ PossibleStates open_cell ∧
    Grid' = <[Z.to_nat 1 := Cell']> [open_cell; open_cell] ∧
    Grid' !! Z.to_nat 1 = Some Cell' ∧
    PossibleStates Cell' = [ChosenState] ∧
    FinalState Cell' = ChosenState ∧
    bIsCollapsed Cell' = true.
Proof.
  refine (proj2 (proj2 (CollapseCell_spec [open_cell; open_cell] 5 1 _)
                   open_cell _ _) _ _).
  - intros rng Min Max Hle. unfold RandRange, counter_random. simpl.
    pose proof (Z.mod_pos_bound rng (Max - Min + 1)). lia.
  - lia.
  - reflexivity.
  - reflexivity.
  - discriminate.
Defined.

Lemma ValidateEdgeRules_spec_witness :
  (ValidateEdgeRules unruled_one_way).1 = false ∧
  TileTypes unruled_one_way ≠ [] ∧
  reports_all_defects unruled_one_way.
Proof.
  split; [reflexivity |]. split; [discriminate |].
  apply (proj1 (proj2 (ValidateEdgeRules_spec unruled_one_way))).
  discriminate.
Defined.

Lemma GenerateGrid_rejects_witness :
  (ValidateEdgeRules unruled_one_way).1 = false ∧
  GenerateGrid unruled_one_way 5 (mkWorld checkerboard_seeded 7 []) =
    Ret ({| Grid := checkerboard_seeded; Rand := 7;
            Log := [] ++ (ValidateEdgeRules unruled_one_way).2 ++ [InvalidRules] |}, 0).
Proof.
  split; [reflexivity |].
  apply (GenerateGrid_rejects unruled_one_way 5 (mkWorld checkerboard_seeded 7 [])).
  reflexivity.
Defined.


Lemma grid_invariant_preserved_witness :
  grid_ok (Num (TileTypes checkerboard)) (Grid (mkWorld checkerboard_0110 1 [])).
Proof.
  refine (proj2 (proj2 (proj2 (proj2 (grid_invariant_preserved checkerboard))))
            6%nat (fresh_world 0) (mkWorld checkerboard_0110 1 []) 1 _ _).
  - reflexivity.
  - reflexivity.
Defined.

(** ** Sample runs *)

Example default_table_valid : ValidateEdgeRules single_cell = (true, []).
Proof. reflexivity. Qed.

(** One cell, three tiles: one collapse, nothing to propagate to. *)
Example single_cell_run :
  GenerateGrid single_cell 4 (fresh_world 4)
    = Ret (mkWorld [collapsed_to 1] 5 [], 1).
Proof. reflexivity. Qed.

(** The solve loop needs a budget: with none it is cut short. *)
Example checkerboard_needs_budget :
  GenerateGrid checkerboard 0 (fresh_world 0) = OutOfFuel.
Proof. reflexivity. Qed.

Example checkerboard_scan : FindCellWithLowestEntropy checkerboard_seeded = 1.
Proof. reflexivity. Qed.

(** * Further properties of the component *)

(** ** Grid coordinates *)

Lemma IndexToXY_nonneg (cfg : Config) (Index : Z) :
  0 < GridWidth cfg → 0 ≤ Index →
  IndexToXY cfg Index = Ret (Index `mod` GridWidth cfg, Index `div` GridWidth cfg).
Proof.
  intros Hw Hi. unfold IndexToXY.
  replace (GridWidth cfg =? 0) with false by (symmetry; apply Z.eqb_neq; lia).
  by rewrite Z.rem_mod_nonneg, Z.quot_div_nonneg by lia.
Qed.

Lemma XYToIndex_in_range (cfg : Config) (X Y : Z) :
  0 < GridWidth cfg → 0 ≤ X → 0 ≤ Y → Y * GridWidth cfg + X ≤ INT32_MAX →
  XYToIndex cfg X Y = Y * GridWidth cfg + X.
Proof.
  intros Hw Hx Hy Hmax. unfold XYToIndex, INT32_MAX in *.
  rewrite (wrap32_id (Y * GridWidth cfg)) by (unfold INT32_MAX; nia).
  apply wrap32_id. unfold INT32_MAX. nia.
Qed.

(** X1.  With a positive width, [IndexToXY] and [XYToIndex] are inverse to
    each other on the indices and coordinates an [int32] can hold: an index
    is split into a column below the width and a row, from which
    [XYToIndex] gives the index back; and a column below the width and a
    row are recovered from the index [XYToIndex] computes, which is
    [Y * GridWidth + X]. *)
Theorem index_round_trip (cfg : Config) :
  0 < GridWidth cfg →
  (∀ Index, 0 ≤ Index ≤ INT32_MAX →
     ∃ X Y, IndexToXY cfg Index = Ret (X, Y) ∧
            0 ≤ X < GridWidth cfg ∧ 0 ≤ Y ∧
            XYToIndex cfg X Y = Index) ∧
  (∀ X Y, 0 ≤ X < GridWidth cfg → 0 ≤ Y →
     Y * GridWidth cfg + X ≤ INT32_MAX →
     XYToIndex cfg X Y = Y * GridWidth cfg + X ∧
     IndexToXY cfg (XYToIndex cfg X Y) = Ret (X, Y)).
Proof.
  intros Hw. split.
  - intros Index Hi.
    exists (Index `mod` GridWidth cfg), (Index `div` GridWidth cfg).
    pose proof (Z.mod_pos_bound Index (GridWidth cfg) Hw) as Hmod.
    pose proof (Z.div_pos Index (GridWidth cfg) ltac:(lia) Hw) as Hdiv.
    pose proof (Z.div_mod Index (GridWidth cfg) ltac:(lia)) as Hsplit.
    split; [apply IndexToXY_nonneg; lia |]. split; [lia |]. split; [lia |].
    rewrite XYToIndex_in_range by (lia || nia). lia.
  - intros X Y Hx Hy Hmax.
    rewrite XYToIndex_in_range by lia. split; [done |].
    rewrite IndexToXY_nonneg by nia. do 2 f_equal.
    + rewrite Z.add_comm, Z.mod_add by lia. apply Z.mod_small. lia.
    + rewrite Z.add_comm, Z.div_add by lia. rewrite Z.div_small by lia. lia.
Qed.

Lemma index_round_trip_witness :
  0 < GridWidth three_by_two ∧
  (∃ X Y, IndexToXY three_by_two 4 = Ret (X, Y) ∧
          0 ≤ X < GridWidth three_by_two ∧ 0 ≤ Y ∧
          XYToIndex three_by_two X Y = 4) ∧
  XYToIndex three_by_two 2 1 = 1 * GridWidth three_by_two + 2 ∧
  IndexToXY three_by_two (XYToIndex three_by_two 2 1) = Ret (2, 1).
Proof.
  split; [reflexivity |]. split.
  - apply (proj1 (index_round_trip three_by_two ltac:(reflexivity)) 4).
    split; discriminate.
  - apply (proj2 (index_round_trip three_by_two ltac:(reflexivity)) 2 1).
    + split; [discriminate | reflexivity].
    + discriminate.
    + discriminate.
Defined.

(** X2.  In a grid of [GridWidth * GridHeight] cells that an [int32] can
    count, the four guards of [PropagateConstraints] hold exactly for the
    neighbours that exist, and the index computed for such a neighbour is
    the cell's index moved by one column or one row: it addresses another
    cell of the grid. *)
Theorem neighbors_stay_in_grid (cfg : Config) (Index : Z) :
  0 < GridWidth cfg → 0 < GridHeight cfg →
  GridWidth cfg * GridHeight cfg ≤ INT32_MAX →
  0 ≤ Index < GridWidth cfg * GridHeight cfg →
  ∃ X Y,
    IndexToXY cfg Index = Ret (X, Y) ∧
    0 ≤ X < GridWidth cfg ∧ 0 ≤ Y < GridHeight cfg ∧
    ∀ d,
      (has_neighbor cfg d X Y = true ↔ neighbor_in_grid cfg d X Y) ∧
      (has_neighbor cfg d X Y = true →
         neighbor_index cfg d X Y = Index + index_offset cfg d ∧
         0 ≤ neighbor_index cfg d X Y < GridWidth cfg * GridHeight cfg ∧
         neighbor_index cfg d X Y ≠ Index).
Proof.
  intros Hw Hh Hcells Hi.
  exists (Index `mod` GridWidth cfg), (Index `div` GridWidth cfg).
  pose proof (Z.mod_pos_bound Index (GridWidth cfg) Hw) as Hmod.
  pose proof (Z.div_pos Index (GridWidth cfg) ltac:(lia) Hw) as Hdiv.
  pose proof (Z.div_mod Index (GridWidth cfg) ltac:(lia)) as Hsplit.
  assert (Hrow : Index `div` GridWidth cfg < GridHeight cfg).
  { apply Z.div_lt_upper_bound; lia. }
  set (X := Index `mod` GridWidth cfg) in *.
  set (Y := Index `div` GridWidth cfg) in *.
  split; [apply IndexToXY_nonneg; lia |]. split; [lia |]. split; [lia |].
  unfold INT32_MAX in *.
  assert (Hwmax : GridWidth cfg ≤ 2147483647) by nia.
  assert (Hhmax : GridHeight cfg ≤ 2147483647) by nia.
  intros d. destruct d; simpl.
  - (* North *)
    split; [apply Z.ltb_lt |]. intros Hg. apply Z.ltb_lt in Hg.
    rewrite (wrap32_id (Y - 1)) by (unfold INT32_MAX; lia).
    rewrite XYToIndex_in_range by (unfold INT32_MAX; lia || nia). nia.
  - (* East *)
    rewrite (wrap32_id (GridWidth cfg - 1)) by (unfold INT32_MAX; lia).
    split; [rewrite Z.ltb_lt; lia |]. intros Hg. apply Z.ltb_lt in Hg.
    rewrite (wrap32_id (X + 1)) by (unfold INT32_MAX; lia).
    rewrite XYToIndex_in_range by (unfold INT32_MAX; lia || nia). nia.
  - (* South *)
    rewrite (wrap32_id (GridHeight cfg - 1)) by (unfold INT32_MAX; lia).
    split; [rewrite Z.ltb_lt; lia |]. intros Hg. apply Z.ltb_lt in Hg.
    rewrite (wrap32_id (Y + 1)) by (unfold INT32_MAX; lia).
    rewrite XYToIndex_in_range by (unfold INT32_MAX; lia || nia). nia.
  - (* West *)
    split; [apply Z.ltb_lt |]. intros Hg. apply Z.ltb_lt in Hg.
    rewrite (wrap32_id (X - 1)) by (unfold INT32_MAX; lia).
    rewrite XYToIndex_in_range by (unfold INT32_MAX; lia || nia). nia.
Qed.

Lemma neighbors_stay_in_grid_witness :
  ∃ X Y,
    IndexToXY three_by_two 4 = Ret (X, Y) ∧
    0 ≤ X < GridWidth three_by_two ∧ 0 ≤ Y < GridHeight three_by_two ∧
    ∀ d,
      (has_neighbor three_by_two d X Y = true ↔ neighbor_in_grid three_by_two d X Y) ∧
      (has_neighbor three_by_two d X Y = true →
         neighbor_index three_by_two d X Y = 4 + index_offset three_by_two d ∧
         0 ≤ neighbor_index three_by_two d X Y
           < GridWidth three_by_two * GridHeight three_by_two ∧
         neighbor_index three_by_two d X Y ≠ 4).
Proof.
  apply (neighbors_stay_in_grid three_by_two 4).
  - reflexivity.
  - reflexivity.
  - discriminate.
  - split; [discriminate | reflexivity].
Defined.

(** ** Validation and compatibility *)

Lemma AreEdgesCompatible_true (cfg : Config) (Edge1 Edge2 : ETileEdgeType) :
  AreEdgesCompatible cfg Edge1 Edge2 = true ↔ CompatibleEdges cfg !! Edge1 = Some Edge2.
Proof.
  unfold AreEdgesCompatible. destruct (CompatibleEdges cfg !! Edge1) as [e |].
  - rewrite bool_decide_eq_true. split; [by intros -> | by intros [= ->]].
  - split; discriminate.
Qed.

Lemma ValidateEdgeRules_log_justified (cfg : Config) (line : LogLine) :
  line ∈ (ValidateEdgeRules cfg).2 → line_justified cfg line.
Proof.
  destruct (decide (TileTypes cfg = [])) as [Hnil | Hne].
  { rewrite ValidateEdgeRules_empty by done. simpl.
    intros Hin. apply list_elem_of_singleton in Hin. by subst. }
  rewrite ValidateEdgeRules_nonempty by done.
  rewrite check_pairs_log, check_tiles_log. simpl.
  intros [[Hin | (k & Tile & d & Hk & Hnone & ->)] | ([Edge1 Edge2] & HP & Hback & ->)].
  - by apply elem_of_nil in Hin.
  - simpl. split; [lia |]. exists Tile.
    by replace (Z.to_nat (0 + Z.of_nat k)) with k by lia.
  - simpl in *. apply elem_of_map_to_list in HP. by repeat split.
Qed.

(** X5.  [ValidateEdgeRules] logs no false alarm: every line of the log
    names a defect the configuration has (the empty catalog, a tile edge
    without rule, an entry that does not map back, reported with the value
    the reverse lookup gave).  And it returns [true] exactly when it has
    logged nothing. *)
Theorem ValidateEdgeRules_log_sound (cfg : Config) :
  (∀ line, line ∈ (ValidateEdgeRules cfg).2 → line_justified cfg line) ∧
  ((ValidateEdgeRules cfg).1 = true ↔ (ValidateEdgeRules cfg).2 = []).
Proof.
  split; [apply ValidateEdgeRules_log_justified |]. split.
  - intros Hvalid. apply ValidateEdgeRules_true in Hvalid as (Hne & Hmiss & Hasym).
    destruct (ValidateEdgeRules cfg).2 as [| line rest] eqn:Hlog; [done |].
    pose proof (ValidateEdgeRules_log_justified cfg line) as Hline.
    rewrite Hlog in Hline. specialize (Hline ltac:(by left)).
    destruct line; simpl in Hline; try done.
    + destruct Hline as [_ Hm]. by destruct (Hmiss _ _ Hm).
    + destruct Hline as [Ha _]. by destruct (Hasym _ _ Ha).
  - intros Hlog. apply ValidateEdgeRules_true.
    destruct (decide (TileTypes cfg = [])) as [Hnil | Hne].
    { rewrite ValidateEdgeRules_empty in Hlog by done. discriminate. }
    destruct (ValidateEdgeRules_complete cfg Hne) as (_ & Hmiss & Hasym).
    rewrite Hlog in Hmiss, Hasym.
    split; [done |]. split.
    + intros i d Hm. specialize (Hmiss i d Hm). by apply elem_of_nil in Hmiss.
    + intros Edge1 Edge2 Ha. specialize (Hasym _ _ Ha). by apply elem_of_nil in Hasym.
Qed.

Lemma ValidateEdgeRules_log_sound_witness :
  NotSymmetric Type_C Type_D None ∈ (ValidateEdgeRules unruled_one_way).2 ∧
  line_justified unruled_one_way (NotSymmetric Type_C Type_D None).
Proof.
  assert (Hin : NotSymmetric Type_C Type_D None ∈ (ValidateEdgeRules unruled_one_way).2).
  { vm_compute. do 4 right. left. }
  split; [exact Hin |].
  apply (proj1 (ValidateEdgeRules_log_sound unruled_one_way)).
  exact Hin.
Defined.

Lemma opposite_involutive (d : Direction) : opposite (opposite d) = d.
Proof. by destruct d. Qed.

(** X3.  Once [ValidateEdgeRules] has succeeded, [AreEdgesCompatible] does
    not depend on the order of its arguments, every edge of every tile has
    exactly one compatible label, and the neighbour relation that
    propagation uses is the same seen from either cell: tile [t] may stand
    in direction [d] of tile [s] exactly when [s] may stand in the opposite
    direction of [t]. *)
Theorem validated_compatibility_symmetric (cfg : Config) :
  (ValidateEdgeRules cfg).1 = true →
  (∀ Edge1 Edge2,
     AreEdgesCompatible cfg Edge1 Edge2 = AreEdgesCompatible cfg Edge2 Edge1) ∧
  (∀ (i : nat) Tile d, TileTypes cfg !! i = Some Tile →
     ∃ Partner, ∀ Edge2,
       AreEdgesCompatible cfg (edge d Tile) Edge2 = true ↔ Edge2 = Partner) ∧
  (∀ d s t, supports cfg d s t ↔ supports cfg (opposite d) t s).
Proof.
  intros Hvalid. apply ValidateEdgeRules_true in Hvalid as (Hne & Hmiss & Hasym).
  assert (Hback : ∀ a b, CompatibleEdges cfg !! a = Some b →
                         CompatibleEdges cfg !! b = Some a).
  { intros a b Hab.
    destruct (decide (CompatibleEdges cfg !! b = Some a)) as [Hok | Hbad]; [done |].
    by destruct (Hasym a b). }
  assert (Hsym : ∀ a b, AreEdgesCompatible cfg a b = AreEdgesCompatible cfg b a).
  { intros a b.
    destruct (AreEdgesCompatible cfg a b) eqn:E1, (AreEdgesCompatible cfg b a) eqn:E2;
      try done.
    - apply AreEdgesCompatible_true, Hback, AreEdgesCompatible_true in E1. congruence.
    - apply AreEdgesCompatible_true, Hback, AreEdgesCompatible_true in E2. congruence. }
  split; [exact Hsym |]. split.
  - intros i Tile d Hi.
    destruct (CompatibleEdges cfg !! edge d Tile) as [Partner |] eqn:E.
    + exists Partner. intros Edge2. rewrite AreEdgesCompatible_true, E.
      split; [by intros [= ->] | by intros ->].
    + destruct (Hmiss i d). by exists Tile.
  - intros d s t. unfold supports. rewrite opposite_involutive. split.
    + intros (TileS & TileT & Hs & HS & Ht & HT & Hc).
      exists TileT, TileS. by rewrite Hsym.
    + intros (TileT & TileS & Ht & HT & Hs & HS & Hc).
      exists TileS, TileT. by rewrite Hsym.
Qed.

Lemma validated_compatibility_symmetric_witness :
  (ValidateEdgeRules checkerboard).1 = true ∧
  AreEdgesCompatible checkerboard Type_A Type_B
    = AreEdgesCompatible checkerboard Type_B Type_A ∧
  (supports checkerboard East 0 1 ↔ supports checkerboard (opposite East) 1 0).
Proof.
  split; [reflexivity |].
  destruct (validated_compatibility_symmetric checkerboard) as (Hsym & _ & Hsup).
  - reflexivity.
  - split; [apply Hsym | apply Hsup].
Defined.

Lemma DefaultCompatibleEdges_lookup (Edge : ETileEdgeType) :
  DefaultCompatibleEdges !! Edge = Some Edge.
Proof. by destruct Edge. Qed.

(** X4.  With the table the constructor installs, [ValidateEdgeRules]
    succeeds for every catalog that is not empty, whatever the grid size,
    and two edges are compatible exactly when they carry the same label. *)
Theorem default_table_accepts (Width Height : Z) (Tiles : list FTileType) :
  ((ValidateEdgeRules (mkConfig Width Height Tiles DefaultCompatibleEdges)).1 = true
   ↔ Tiles ≠ []) ∧
  (∀ Edge1 Edge2,
     AreEdgesCompatible (mkConfig Width Height Tiles DefaultCompatibleEdges) Edge1 Edge2
       = true ↔ Edge1 = Edge2).
Proof.
  split.
  - rewrite ValidateEdgeRules_true. simpl. split; [by intros [] |].
    intros Hne. split; [done |]. split.
    + intros i d (Tile & _ & Hnone). simpl in Hnone.
      by rewrite DefaultCompatibleEdges_lookup in Hnone.
    + intros Edge1 Edge2 [H12 H21]. simpl in *.
      rewrite DefaultCompatibleEdges_lookup in H12. inversion H12; subst.
      by rewrite DefaultCompatibleEdges_lookup in H21.
  - intros Edge1 Edge2. rewrite AreEdgesCompatible_true. simpl.
    rewrite DefaultCompatibleEdges_lookup. split; [by intros [= ->] | by intros ->].
Qed.

(** ** The allowed states of a neighbour *)

Lemma AddUnique_NoDup (l : list Z) (x : Z) : NoDup l → NoDup (AddUnique l x).
Proof.
  intros Hl. unfold AddUnique. case_bool_decide as Hx; [done |].
  apply NoDup_app. split; [done |]. split; [| apply NoDup_singleton].
  intros y Hy Hyx. apply list_elem_of_singleton in Hyx. by subst.
Qed.

Lemma AddUnique_prefix (l : list Z) (x : Z) : l `prefix_of` AddUnique l x.
Proof. unfold AddUnique. case_bool_decide; [done |]. by apply prefix_app_r. Qed.

Section AllowedStates.
Variable cfg : Config.

Lemma add_compatible_spec (d : Direction) (CurrentEdge : ETileEdgeType)
    (tiles : list FTileType) (i : Z) (Allowed : list Z) :
  (∀ t, t ∈ add_compatible cfg d CurrentEdge i tiles Allowed ↔
        t ∈ Allowed ∨
        ∃ (k : nat) Tile, tiles !! k = Some Tile ∧ t = i + Z.of_nat k ∧
          AreEdgesCompatible cfg CurrentEdge (edge (opposite d) Tile) = true) ∧
  (NoDup Allowed → NoDup (add_compatible cfg d CurrentEdge i tiles Allowed)).
Proof.
  revert i Allowed. induction tiles as [| T rest IH]; intros i Allowed; simpl.
  - split; [| done]. intros t. split; [by left |].
    intros [Ht | (k & Tile & Hk & _)]; [done | discriminate].
  - destruct (IH (i + 1)
               (if AreEdgesCompatible cfg CurrentEdge (edge (opposite d) T)
                then AddUnique Allowed i else Allowed)) as [Hmem Hnd].
    split.
    + intros t. rewrite Hmem. split.
      * intros [Ht | (k & Tile & Hk & -> & Hc)].
        -- destruct (AreEdgesCompatible cfg CurrentEdge (edge (opposite d) T)) eqn:E;
             [| by left].
           apply elem_of_AddUnique in Ht as [Ht | ->]; [by left |].
           right. exists 0%nat, T. split; [done |]. split; [lia | done].
        -- right. exists (S k), Tile. split; [done |]. split; [lia | done].
      * intros [Ht | (k & Tile & Hk & -> & Hc)].
        -- left. destruct (AreEdgesCompatible cfg CurrentEdge (edge (opposite d) T));
             [| done]. apply elem_of_AddUnique. by left.
        -- destruct k as [| k]; simpl in Hk.
           ++ inversion Hk; subst. left. rewrite Hc. apply elem_of_AddUnique.
              right. lia.
           ++ right. exists k, Tile. split; [done |]. split; [lia | done].
    + intros HA. apply Hnd.
      destruct (AreEdgesCompatible cfg CurrentEdge (edge (opposite d) T)); [| done].
      by apply AddUnique_NoDup.
Qed.

Lemma allowed_states_spec (d : Direction) (States : list Z)
    (Allowed0 Allowed : list Z) :
  allowed_states cfg d States Allowed0 = Ret Allowed →
  (∀ t, t ∈ Allowed ↔ t ∈ Allowed0 ∨ ∃ s, s ∈ States ∧ supports cfg d s t) ∧
  (NoDup Allowed0 → NoDup Allowed).
Proof.
  revert Allowed0. induction States as [| s rest IH]; intros Allowed0; simpl.
  - intros [= <-]. split; [| done]. intros t. split; [by left |].
    intros [Ht | (s & Hs & _)]; [done | by apply elem_of_nil in Hs].
  - intros Hrun. apply bind_Ret in Hrun as (TileS & Hat & Hrun).
    apply at_index_Ret in Hat as [Hs HS].
    destruct (IH _ Hrun) as [Hmem Hnd].
    destruct (add_compatible_spec d (edge d TileS) (TileTypes cfg) 0 Allowed0)
      as [Hadd Haddnd].
    split; [| by intros HA; apply Hnd, Haddnd].
    intros t. rewrite Hmem, Hadd. split.
    + intros [[Ht | (k & TileT & Hk & -> & Hc)] | (s' & Hs' & Hsup)].
      * by left.
      * right. exists s. split; [by left |]. exists TileS, TileT.
        replace (Z.to_nat (0 + Z.of_nat k)) with k by lia.
        repeat split; (done || lia).
      * right. exists s'. split; [by right | done].
    + intros [Ht | (s' & Hs' & Hsup)]; [by left; left |].
      apply elem_of_cons in Hs' as [-> | Hs']; [| right; by exists s'].
      destruct Hsup as (TileS' & TileT & _ & HS' & Ht & HT & Hc).
      rewrite HS in HS'. inversion HS'; subst TileS'.
      left; right. exists (Z.to_nat t), TileT. split; [done |]. split; [lia | done].
Qed.

Lemma allowed_states_Crash (d : Direction) (States : list Z) (Allowed0 : list Z) :
  allowed_states cfg d States Allowed0 = Crash →
  ∃ s, s ∈ States ∧ ¬ (0 ≤ s < Num (TileTypes cfg)).
Proof.
  intros Hcrash.
  destruct (decide (Forall (λ s, 0 ≤ s < Num (TileTypes cfg)) States)) as [Hall | Hsome].
  - rewrite Forall_forall in Hall.
    destruct (allowed_states_runs cfg d States Allowed0 Hall) as [A HA]. congruence.
  - apply not_Forall_Exists in Hsome; [| apply _].
    apply Exists_exists in Hsome as (s & Hs & Hbad). by exists s.
Qed.

End AllowedStates.

(** X8.  The two nested loops that precede each update compute, without
    repetition, exactly the tiles that may stand in direction [d] of some
    candidate of the current cell.  They fail on the index check of
    [TileTypes] exactly when a candidate is not an index of the catalog. *)
Theorem allowed_states_exact (cfg : Config) (d : Direction) (States : list Z) :
  (∀ Allowed, allowed_states cfg d States [] = Ret Allowed →
     NoDup Allowed ∧
     ∀ t, t ∈ Allowed ↔ ∃ s, s ∈ States ∧ supports cfg d s t) ∧
  (allowed_states cfg d States [] = Crash ↔
     ∃ s, s ∈ States ∧ ¬ (0 ≤ s < Num (TileTypes cfg))).
Proof.
  split.
  - intros Allowed Hrun. destruct (allowed_states_spec cfg d States [] Allowed Hrun)
      as [Hmem Hnd].
    split; [apply Hnd, NoDup_nil_2 |]. intros t. rewrite Hmem. split.
    + intros [Ht | Hsup]; [by apply elem_of_nil in Ht | done].
    + by right.
  - split; [apply allowed_states_Crash |].
    intros (s & Hs & Hbad).
    destruct (allowed_states cfg d States []) as [Allowed | |] eqn:Hrun; [| done |].
    + exfalso. apply Hbad. clear Hbad.
      revert Hrun. generalize (@nil Z). induction States as [| s' rest IH];
        intros Allowed0 Hrun; [by apply elem_of_nil in Hs |].
      simpl in Hrun. apply bind_Ret in Hrun as (Tile & Hat & Hrun).
      apply elem_of_cons in Hs as [-> | Hs]; [| by eapply IH].
      apply at_index_Ret in Hat as [Hnn Hl]. apply lookup_lt_Some in Hl.
      unfold Num. lia.
    + by destruct (allowed_states_not_OutOfFuel cfg d States []).
Qed.

Lemma allowed_states_exact_witness :
  allowed_states checkerboard East [0] [] = Ret [1] ∧
  NoDup [1] ∧
  ∀ t, t ∈ [1] ↔ ∃ s, s ∈ [0] ∧ supports checkerboard East s t.
Proof.
  split; [reflexivity |].
  apply (proj1 (allowed_states_exact checkerboard East [0]) [1]).
  reflexivity.
Defined.

(** ** What an update reports and keeps *)

Lemma filter_allowed_same_length (AllowedStates States : list Z) :
  length (filter_allowed AllowedStates States) = length States →
  filter_allowed AllowedStates States = States.
Proof.
  unfold filter_allowed. induction States as [| s rest IH]; [done |].
  rewrite filter_cons. case_decide as Hs; simpl.
  - intros Hlen. f_equal. apply IH. lia.
  - intros Hlen.
    pose proof (length_filter (λ State, State ∈ AllowedStates) rest). lia.
Qed.

(** X11.  [UpdateCellPossibilities] touches no cell but the one it
    addresses.  It returns [true] exactly when that cell has lost
    candidates, of which at least one is left; when it returns [false] the
    candidates of every cell are what they were (the addressed cell may
    still have been marked collapsed, if it held a single candidate). *)
Theorem UpdateCellPossibilities_reports (Grid : list FCell) (CellIndex : Z)
    (AllowedStates : list Z) :
  (∀ j, j ≠ Z.to_nat CellIndex →
     (UpdateCellPossibilities Grid CellIndex AllowedStates).1 !! j = Grid !! j) ∧
  ((UpdateCellPossibilities Grid CellIndex AllowedStates).2 = true →
     ∃ Cell Cell',
       0 ≤ CellIndex ∧
       Grid !! Z.to_nat CellIndex = Some Cell ∧
       (UpdateCellPossibilities Grid CellIndex AllowedStates).1 !! Z.to_nat CellIndex
         = Some Cell' ∧
       0 < Num (PossibleStates Cell') < Num (PossibleStates Cell)) ∧
  ((UpdateCellPossibilities Grid CellIndex AllowedStates).2 = false →
     ∀ j Cell Cell',
       Grid !! j = Some Cell →
       (UpdateCellPossibilities Grid CellIndex AllowedStates).1 !! j = Some Cell' →
       PossibleStates Cell' = PossibleStates Cell).
Proof.
  destruct (UpdateCellPossibilities_cases Grid CellIndex AllowedStates)
    as [-> | (Cell & Hin & Hl & Hnc & ->)]; simpl.
  { split; [done |]. split; [discriminate |]. intros _ j Cell Cell' H1 H2. congruence. }
  pose proof (lookup_lt_Some _ _ _ Hl) as Hlt.
  pose proof (filter_allowed_sublist AllowedStates (PossibleStates Cell)) as Hsub.
  apply sublist_length in Hsub.
  split; [intros j Hj; by apply list_lookup_insert_ne |]. split.
  - intros Hchanged. apply negb_true_iff, Z.eqb_neq in Hchanged.
    exists Cell, (narrowed Cell (filter_allowed AllowedStates (PossibleStates Cell))).
    split; [lia |]. split; [done |]. split; [by apply list_lookup_insert_eq |].
    rewrite narrowed_PossibleStates in *.
    destruct (0 <? Num (filter_allowed AllowedStates (PossibleStates Cell))) eqn:E;
      [| done].
    apply Z.ltb_lt in E. unfold Num in *. lia.
  - intros Hsame. apply negb_false_iff, Z.eqb_eq in Hsame.
    intros j C C' HC HC'.
    destruct (decide (j = Z.to_nat CellIndex)) as [-> | Hne].
    + rewrite list_lookup_insert_eq in HC' by done. inversion HC'; subst C'.
      rewrite Hl in HC. inversion HC; subst C.
      rewrite narrowed_PossibleStates in *.
      destruct (0 <? Num (filter_allowed AllowedStates (PossibleStates Cell))); [| done].
      apply filter_allowed_same_length. unfold Num in Hsame. lia.
    + rewrite list_lookup_insert_ne in HC' by done. congruence.
Qed.

Lemma UpdateCellPossibilities_reports_witness :
  (UpdateCellPossibilities checkerboard_seeded 1 [1]).2 = true ∧
  ∃ Cell Cell',
    0 ≤ 1 ∧
    checkerboard_seeded !! Z.to_nat 1 = Some Cell ∧
    (UpdateCellPossibilities checkerboard_seeded 1 [1]).1 !! Z.to_nat 1 = Some Cell' ∧
    0 < Num (PossibleStates Cell') < Num (PossibleStates Cell).
Proof.
  split; [reflexivity |].
  apply (proj1 (proj2 (UpdateCellPossibilities_reports checkerboard_seeded 1 [1]))).
  reflexivity.
Defined.

(** X12.  One block of [PropagateConstraints], seen from the neighbour it
    addresses.  A neighbour that is collapsed, or none of whose candidates
    is supported by a candidate of the current cell, is left exactly as it
    was, and the queue too.  A neighbour that is not collapsed and has a
    supported candidate keeps exactly its supported candidates, in their
    order; it is marked collapsed exactly when one candidate is left, which
    is then its final state; its index is added to the queue (unless
    already there) exactly when it lost a candidate.  No other cell
    changes. *)
Theorem block_keeps_supported (cfg : Config) (d : Direction)
    (CurrentCellIndex X Y : Z) (Grid Grid' : list FCell) (Queue Queue' : list Z)
    (CurrentCell Neighbor Neighbor' : FCell) :
  process_neighbor cfg d CurrentCellIndex X Y (Grid, Queue) = Ret (Grid', Queue') →
  has_neighbor cfg d X Y = true →
  at_index Grid CurrentCellIndex = Ret CurrentCell →
  at_index Grid (neighbor_index cfg d X Y) = Ret Neighbor →
  at_index Grid' (neighbor_index cfg d X Y) = Ret Neighbor' →
  (bIsCollapsed Neighbor = true ∨
   (∀ t, t ∈ PossibleStates Neighbor →
         ¬ supported_by cfg d (PossibleStates CurrentCell) t) →
   Neighbor' = Neighbor ∧ Grid' = Grid ∧ Queue' = Queue) ∧
  (bIsCollapsed Neighbor = false →
   (∃ t, t ∈ PossibleStates Neighbor ∧
         supported_by cfg d (PossibleStates CurrentCell) t) →
   PossibleStates Neighbor' `sublist_of` PossibleStates Neighbor ∧
   (∀ t, t ∈ PossibleStates Neighbor' ↔
         t ∈ PossibleStates Neighbor ∧
         supported_by cfg d (PossibleStates CurrentCell) t) ∧
   (bIsCollapsed Neighbor' = true ↔ Num (PossibleStates Neighbor') = 1) ∧
   (bIsCollapsed Neighbor' = true →
      PossibleStates Neighbor' = [FinalState Neighbor']) ∧
   (Num (PossibleStates Neighbor') = Num (PossibleStates Neighbor) → Queue' = Queue) ∧
   (Num (PossibleStates Neighbor') ≠ Num (PossibleStates Neighbor) →
      Queue' = AddUnique Queue (neighbor_index cfg d X Y))) ∧
  (∀ j, j ≠ Z.to_nat (neighbor_index cfg d X Y) → Grid' !! j = Grid !! j).
Proof.
  unfold process_neighbor. simpl. intros Hrun Hhas Hcur Hn Hn'.
  rewrite Hhas, Hcur in Hrun. simpl in Hrun.
  apply bind_Ret in Hrun as (Allowed & Hallowed & Hrun).
  apply at_index_Ret in Hn as [Hnn Hl]. apply at_index_Ret in Hn' as [_ Hl'].
  pose proof (lookup_lt_Some _ _ _ Hl) as Hlt.
  destruct (allowed_states_spec cfg d _ _ _ Hallowed) as [Hmem _].
  assert (Hfilter : ∀ t, t ∈ filter_allowed Allowed (PossibleStates Neighbor) ↔
            t ∈ PossibleStates Neighbor ∧
            supported_by cfg d (PossibleStates CurrentCell) t).
  { intros t. unfold filter_allowed, supported_by.
    rewrite list_elem_of_filter, Hmem. split.
    - intros [[Ht | Hsup] Hin]; [by apply elem_of_nil in Ht | done].
    - intros [Hin Hsup]. split; [by right | done]. }
  inversion Hrun; subst Grid' Queue'; clear Hrun.
  rewrite (UpdateCellPossibilities_at _ _ _ Neighbor) in Hl' |- * by done.
  destruct (bIsCollapsed Neighbor) eqn:Hc; simpl in Hl' |- *.
  { split; [| split; [discriminate | done]].
    intros _. split; [congruence | done]. }
  rewrite list_lookup_insert_eq in Hl' by done.
  inversion Hl'; subst Neighbor'; clear Hl'.
  set (kept := filter_allowed Allowed (PossibleStates Neighbor)) in *.
  split; [| split].
  - intros [? | Hnone]; [done |].
    assert (Hkept : kept = []).
    { destruct kept as [| t0 rest] eqn:E; [done |].
      destruct (proj1 (Hfilter t0) ltac:(by left)) as [Hin Hsup].
      by destruct (Hnone t0 Hin). }
    rewrite Hkept, narrowed_empty, Z.eqb_refl. simpl.
    by rewrite list_insert_id.
  - intros _ (t & Hin & Hsup).
    assert (Hpos : 0 < Num kept).
    { assert (Ht : t ∈ kept) by (by apply Hfilter).
      destruct kept; [by apply elem_of_nil in Ht |]. unfold Num. simpl. lia. }
    assert (Hstates : PossibleStates (narrowed Neighbor kept) = kept).
    { rewrite narrowed_PossibleStates.
      by replace (0 <? Num kept) with true by (symmetry; by apply Z.ltb_lt). }
    rewrite Hstates.
    split; [apply filter_allowed_sublist |]. split; [exact Hfilter |].
    unfold narrowed.
    replace (0 <? Num kept) with true by (symmetry; by apply Z.ltb_lt).
    destruct (Num kept =? 1) eqn:Hone; simpl.
    + apply Z.eqb_eq in Hone. split; [done |]. split.
      * intros _. destruct kept as [| t0 [| t1 rest]];
          [done | done | unfold Num in Hone; simpl in Hone; lia].
      * split.
        -- intros ->. by rewrite Z.eqb_refl.
        -- intros Hne. by replace (Num (PossibleStates Neighbor) =? Num kept)
             with false by (symmetry; apply Z.eqb_neq; lia).
    + apply Z.eqb_neq in Hone. rewrite Hc. split; [split; [discriminate | done] |].
      split; [discriminate |]. split.
      * intros ->. by rewrite Z.eqb_refl.
      * intros Hne. by replace (Num (PossibleStates Neighbor) =? Num kept)
          with false by (symmetry; apply Z.eqb_neq; lia).
  - intros j Hj. by apply list_lookup_insert_ne.
Qed.

Lemma block_keeps_supported_witness :
  PossibleStates (collapsed_to 1) `sublist_of` PossibleStates open_cell ∧
  (∀ t, t ∈ PossibleStates (collapsed_to 1) ↔
        t ∈ PossibleStates open_cell ∧
        supported_by checkerboard East (PossibleStates (collapsed_to 0)) t) ∧
  (bIsCollapsed (collapsed_to 1) = true ↔ Num (PossibleStates (collapsed_to 1)) = 1) ∧
  (bIsCollapsed (collapsed_to 1) = true →
     PossibleStates (collapsed_to 1) = [FinalState (collapsed_to 1)]) ∧
  (Num (PossibleStates (collapsed_to 1)) = Num (PossibleStates open_cell) →
     [2; 1] = [2]) ∧
  (Num (PossibleStates (collapsed_to 1)) ≠ Num (PossibleStates open_cell) →
     [2; 1] = AddUnique [2] (neighbor_index checkerboard East 0 0)).
Proof.
  refine (proj1 (proj2 (block_keeps_supported checkerboard East 0 0 0
            checkerboard_seeded
            [collapsed_to 0; collapsed_to 1; open_cell; open_cell] [2] [2; 1]
            (collapsed_to 0) open_cell (collapsed_to 1) _ _ _ _ _)) _ _).
  - reflexivity.
  - reflexivity.
  - reflexivity.
  - reflexivity.
  - reflexivity.
  - reflexivity.
  - exists 1. split; [right; left |].
    exists 0. split; [left |].
    exists tile_A, tile_B. repeat split; (reflexivity || discriminate).
Defined.

(** ** The propagation queue *)

Lemma AddUnique_appended (Grid : list FCell) (Queue : list Z) (x : Z) :
  0 ≤ x < Num Grid → appended Grid Queue (AddUnique Queue x) 1.
Proof.
  intros Hx. unfold AddUnique. case_bool_decide as Hin.
  - exists []. rewrite app_nil_r. split; [done |]. split; [simpl; lia |].
    split; [apply NoDup_nil_2 |]. intros i Hi. by apply elem_of_nil in Hi.
  - exists [x]. split; [done |]. split; [simpl; lia |].
    split; [apply NoDup_singleton |]. intros i Hi.
    apply list_elem_of_singleton in Hi. by subst.
Qed.

Lemma appended_refl (Grid : list FCell) (Queue : list Z) (n : nat) :
  appended Grid Queue Queue n.
Proof.
  exists []. rewrite app_nil_r. split; [done |]. split; [simpl; lia |].
  split; [apply NoDup_nil_2 |]. intros i Hi. by apply elem_of_nil in Hi.
Qed.

Lemma appended_trans (Grid Grid1 : list FCell) (Q Q1 Q2 : list Z) (n m : nat) :
  length Grid1 = length Grid →
  appended Grid Q Q1 n → appended Grid1 Q1 Q2 m → appended Grid Q Q2 (n + m).
Proof.
  intros Hlen (A & -> & HlenA & HndA & HA) (B & -> & HlenB & HndB & HB).
  exists (A ++ B). split; [by rewrite app_assoc |].
  split; [rewrite length_app; lia |]. split.
  - apply NoDup_app. split; [done |]. split; [| done].
    intros i HiA HiB. destruct (HB i HiB) as [Hnot _]. apply Hnot.
    apply elem_of_app. by right.
  - intros i Hi. apply elem_of_app in Hi as [Hi | Hi]; [by apply HA |].
    destruct (HB i Hi) as [Hnot Hrange]. split.
    + intros HiQ. apply Hnot. apply elem_of_app. by left.
    + unfold Num in *. by rewrite <- Hlen.
Qed.

Lemma process_neighbor_appends (cfg : Config) (d : Direction) (Cur X Y : Z)
    (st st' : list FCell * list Z) :
  process_neighbor cfg d Cur X Y st = Ret st' → appended st.1 st.2 st'.2 1.
Proof.
  unfold process_neighbor. destruct (has_neighbor cfg d X Y);
    [| intros [= <-]; apply appended_refl].
  intros Hrun. apply bind_Ret in Hrun as (CurrentCell & _ & Hrun).
  apply bind_Ret in Hrun as (Allowed & _ & Hrun).
  inversion Hrun; subst; clear Hrun. simpl.
  pose proof (UpdateCellPossibilities_changed st.1 (neighbor_index cfg d X Y) Allowed) as Hch.
  destruct (UpdateCellPossibilities st.1 (neighbor_index cfg d X Y) Allowed).2;
    [| apply appended_refl].
  apply AddUnique_appended. by apply Hch.
Qed.

Lemma propagate_step_appends (cfg : Config) (Cur : Z) (st st' : list FCell * list Z) :
  propagate_step cfg Cur st = Ret st' → appended st.1 st.2 st'.2 4.
Proof.
  unfold propagate_step. intros Hrun.
  apply bind_Ret in Hrun as (XY & _ & Hrun).
  apply bind_Ret in Hrun as (c & _ & Hrun).
  apply bind_Ret in Hrun as (st1 & H1 & Hrun).
  apply bind_Ret in Hrun as (st2 & H2 & Hrun).
  apply bind_Ret in Hrun as (st3 & H3 & H4).
  pose proof (process_neighbor_sound _ _ _ _ _ _ _ H1) as (L1 & _).
  pose proof (process_neighbor_sound _ _ _ _ _ _ _ H2) as (L2 & _).
  pose proof (process_neighbor_sound _ _ _ _ _ _ _ H3) as (L3 & _).
  apply process_neighbor_appends in H1, H2, H3, H4.
  pose proof (appended_trans _ _ _ _ _ _ _ L1 H1 H2) as H12.
  pose proof (appended_trans st.1 st2.1 _ _ _ _ _ ltac:(congruence) H12 H3) as H123.
  exact (appended_trans st.1 st3.1 _ _ _ _ _ ltac:(congruence) H123 H4).
Qed.

(** X9.  The propagation loop uses its queue as a FIFO without repetition.
    A turn takes the index at the head of the queue and runs the four
    blocks for it; the loop then goes on with the other pending indices,
    in their order, followed by the indices this turn has appended: at
    most four, all different, none of them already pending, each
    addressing a cell of the grid. *)
Theorem queue_discipline (cfg : Config) (fuel : nat) (Grid : list FCell)
    (CurrentCellIndex : Z) (Queue : list Z) (Grid' : list FCell) :
  propagate_loop cfg (S fuel) Grid (CurrentCellIndex :: Queue) = Ret Grid' →
  ∃ (Grid1 : list FCell) (Added : list Z),
    propagate_step cfg CurrentCellIndex (Grid, Queue) = Ret (Grid1, Queue ++ Added) ∧
    propagate_loop cfg fuel Grid1 (Queue ++ Added) = Ret Grid' ∧
    (length Added ≤ 4)%nat ∧
    NoDup Added ∧
    (∀ i, i ∈ Added → (i ∉ Queue) ∧ 0 ≤ i < Num Grid) ∧
    (NoDup Queue → NoDup (Queue ++ Added)).
Proof.
  simpl. intros Hrun. apply bind_Ret in Hrun as ([Grid1 Queue1] & Hstep & Hrun).
  destruct (propagate_step_appends _ _ _ _ Hstep) as (Added & HQ & Hlen & Hnd & Hnew).
  simpl in *. subst Queue1. exists Grid1, Added.
  split; [done |]. split; [done |]. split; [done |]. split; [done |].
  split; [done |].
  intros HndQ. apply NoDup_app. split; [done |]. split; [| done].
  intros i HiQ HiA. by destruct (Hnew i HiA).
Qed.

Lemma queue_discipline_witness :
  ∃ (Grid1 : list FCell) (Added : list Z),
    propagate_step checkerboard 0 (checkerboard_seeded, [2])
      = Ret (Grid1, [2] ++ Added) ∧
    propagate_loop checkerboard 3 Grid1 ([2] ++ Added) = Ret checkerboard_0110 ∧
    (length Added ≤ 4)%nat ∧
    NoDup Added ∧
    (∀ i, i ∈ Added → (i ∉ [2]) ∧ 0 ≤ i < Num checkerboard_seeded) ∧
    (NoDup [2] → NoDup ([2] ++ Added)).
Proof.
  apply (queue_discipline checkerboard 3 checkerboard_seeded 0 [2] checkerboard_0110).
  reflexivity.
Defined.

(** The turn of the statement above: cell 2 was pending, cell 1 is appended
    behind it, and cell 2, hit again, is not appended a second time. *)
Example queue_turn :
  propagate_step checkerboard 0 (checkerboard_seeded, [2])
    = Ret ([collapsed_to 0; collapsed_to 1; collapsed_to 1; open_cell], [2; 1]).
Proof. reflexivity. Qed.

(** ** A fully collapsed grid *)

Lemma uncollapsed_zero (Grid : list FCell) :
  IsGridFullyCollapsed Grid = true ↔ uncollapsed Grid = 0%nat.
Proof.
  induction Grid as [| c rest IH]; simpl; [done |].
  destruct (bIsCollapsed c); simpl; [exact IH |]. split; [discriminate | lia].
Qed.

Lemma UpdateCellPossibilities_collapsed_grid (Grid : list FCell) (CellIndex : Z)
    (AllowedStates : list Z) :
  IsGridFullyCollapsed Grid = true →
  UpdateCellPossibilities Grid CellIndex AllowedStates = (Grid, false).
Proof.
  intros Hfull. apply IsGridFullyCollapsed_true in Hfull.
  destruct (UpdateCellPossibilities_cases Grid CellIndex AllowedStates)
    as [-> | (Cell & Hin & Hl & Hnc & _)]; [done |].
  rewrite Forall_lookup in Hfull. specialize (Hfull _ _ Hl). simpl in Hfull. congruence.
Qed.

(** X6.  A fully collapsed grid is final: [FindCellWithLowestEntropy]
    returns [-1], and [CollapseCell], [UpdateCellPossibilities] and
    [PropagateConstraints] return it unchanged, whatever the index, without
    drawing a number.  When the candidates are tile indices and the width
    is not 0, a propagation returns after a single turn. *)
Theorem collapsed_grid_is_final {R : Type} `{RandomSource R} (Grid : list FCell) :
  IsGridFullyCollapsed Grid = true →
  FindCellWithLowestEntropy Grid = -1 ∧
  (∀ (rng : R) CellIndex, CollapseCell Grid rng CellIndex = Ret (Grid, rng)) ∧
  (∀ CellIndex AllowedStates,
     UpdateCellPossibilities Grid CellIndex AllowedStates = (Grid, false)) ∧
  (∀ cfg fuel CellIndex Grid',
     PropagateConstraints cfg fuel Grid CellIndex = Ret Grid' → Grid' = Grid) ∧
  (∀ cfg fuel CellIndex,
     GridWidth cfg ≠ 0 → grid_ok (Num (TileTypes cfg)) Grid → (1 ≤ fuel)%nat →
     PropagateConstraints cfg fuel Grid CellIndex = Ret Grid).
Proof.
  intros Hfull. pose proof Hfull as Hall. apply IsGridFullyCollapsed_true in Hall.
  rewrite Forall_lookup in Hall.
  assert (Hfix : ∀ cfg fuel CellIndex Grid',
            PropagateConstraints cfg fuel Grid CellIndex = Ret Grid' → Grid' = Grid).
  { intros cfg fuel CellIndex Grid' Hrun.
    eapply (PropagateConstraints_preserves cfg (λ g, g = Grid)); [| done | exact Hrun].
    intros g i A ->. by rewrite UpdateCellPossibilities_collapsed_grid. }
  split; [| split; [| split; [| split]]].
  - unfold FindCellWithLowestEntropy.
    destruct (entropy_scan_spec Grid 0 (-1, INT32_MAX))
      as [[-> _] | (k & Cell & Hk & [Hnc _] & _)]; [done |].
    specialize (Hall _ _ Hk). simpl in Hall. congruence.
  - intros rng CellIndex.
    destruct (decide (0 ≤ CellIndex < Num Grid)) as [Hin | Hout];
      [| by apply CollapseCell_outside].
    destruct (lookup_lt_is_Some_2 Grid (Z.to_nat CellIndex)) as [Cell HCell].
    { unfold Num in Hin. lia. }
    rewrite (CollapseCell_at _ _ _ Cell) by (done || lia).
    specialize (Hall _ _ HCell). simpl in Hall. by rewrite Hall.
  - intros. by apply UpdateCellPossibilities_collapsed_grid.
  - exact Hfix.
  - intros cfg fuel CellIndex Hw Hok Hfuel.
    destruct fuel as [| fuel]; [lia |].
    unfold PropagateConstraints.
    destruct ((CellIndex <? 0) || (Num Grid <=? CellIndex)) eqn:Hrange; [done |].
    apply orb_false_iff in Hrange as [Hlo Hhi].
    apply Z.ltb_ge in Hlo. apply Z.leb_gt in Hhi. simpl.
    destruct (propagate_step_runs cfg Hw CellIndex (Grid, [])) as [st Hstep];
      [done | simpl; lia |].
    rewrite Hstep. simpl.
    assert (Hst1 : st.1 = Grid).
    { eapply (propagate_step_preserves cfg (λ g, g = Grid)); [| | exact Hstep]; [| done].
      intros g i A ->. by rewrite UpdateCellPossibilities_collapsed_grid. }
    apply propagate_step_sound in Hstep as (_ & _ & Hm). simpl in Hm.
    rewrite Hst1 in *. destruct st.2 eqn:Hq; [| simpl in Hm; lia].
    by destruct fuel.
Qed.

Lemma collapsed_grid_is_final_witness :
  FindCellWithLowestEntropy checkerboard_0110 = -1 ∧
  (∀ (rng : Z) CellIndex,
     CollapseCell checkerboard_0110 rng CellIndex = Ret (checkerboard_0110, rng)) ∧
  (∀ CellIndex AllowedStates,
     UpdateCellPossibilities checkerboard_0110 CellIndex AllowedStates
       = (checkerboard_0110, false)) ∧
  (∀ cfg fuel CellIndex Grid',
     PropagateConstraints cfg fuel checkerboard_0110 CellIndex = Ret Grid' →
     Grid' = checkerboard_0110) ∧
  (∀ cfg fuel CellIndex,
     GridWidth cfg ≠ 0 → grid_ok (Num (TileTypes cfg)) checkerboard_0110 →
     (1 ≤ fuel)%nat →
     PropagateConstraints cfg fuel checkerboard_0110 CellIndex = Ret checkerboard_0110).
Proof.
  apply (collapsed_grid_is_final checkerboard_0110).
  reflexivity.
Defined.

(** ** Progress of the solve loop *)

Lemma uncollapsed_collapse (Grid : list FCell) (i : nat) (Cell : FCell) (State : Z) :
  Grid !! i = Some Cell → bIsCollapsed Cell = false →
  (uncollapsed (<[i := collapsed_to State]> Grid) + 1 = uncollapsed Grid)%nat.
Proof.
  revert i. induction Grid as [| c rest IH]; intros i Hl Hnc; [discriminate |].
  destruct i as [| i]; simpl in *.
  - inversion Hl; subst. rewrite Hnc. lia.
  - specialize (IH i Hl Hnc). lia.
Qed.

Lemma grid_shrinks_uncollapsed (Old New : list FCell) :
  grid_shrinks Old New → (uncollapsed New ≤ uncollapsed Old)%nat.
Proof.
  induction 1 as [| o n Old New [_ Hfix] _ IH]; simpl; [lia |].
  destruct (bIsCollapsed o) eqn:Ho.
  - rewrite (Hfix eq_refl), Ho. lia.
  - destruct (bIsCollapsed n); lia.
Qed.

Lemma uncollapsed_replicate (n : nat) (Cell : FCell) :
  bIsCollapsed Cell = false → uncollapsed (replicate n Cell) = n.
Proof. intros Hnc. induction n as [| n IH]; simpl; [done |]. rewrite Hnc, IH. lia. Qed.

Lemma CollapseCell_shrinks {R : Type} `{RandomSource R}
    (Grid : list FCell) (rng : R) (CellIndex : Z) (Grid' : list FCell) (rng' : R) :
  CollapseCell Grid rng CellIndex = Ret (Grid', rng') → grid_shrinks Grid Grid'.
Proof.
  intros Hrun. apply CollapseCell_Ret in Hrun
    as [[-> _] | (Cell & s & Hin & Hl & Hnc & Hs & ->)]; [apply grid_shrinks_refl |].
  rewrite <- (list_insert_id Grid (Z.to_nat CellIndex) Cell) at 1 by done.
  apply Forall2_insert; [apply grid_shrinks_refl |].
  split; [by apply singleton_sublist_l | congruence].
Qed.

Section SolveProgress.
Context {R : Type} `{RandomSource R}.
Variable cfg : Config.

(** Every turn of the solve loop collapses at least one more cell, and the
    grid changes only in a turn. *)
Lemma solve_loop_progress (fuel : nat) (Grid : list FCell) (rng : R) (k : Z)
    (res : list FCell * R * Z) :
  0 ≤ k → solve_loop cfg fuel Grid rng k = Ret res →
  k ≤ res.2 ∧
  res.2 + Z.of_nat (uncollapsed res.1.1) ≤ k + Z.of_nat (uncollapsed Grid) ∧
  (res.2 = k → res.1.1 = Grid).
Proof.
  revert Grid rng k. induction fuel as [| fuel IH]; intros Grid rng k Hk; simpl.
  - destruct (negb (IsGridFullyCollapsed Grid) && (k <? MaxIterations cfg));
      [discriminate |]. intros [= <-]. simpl. repeat split; (lia || done).
  - destruct (negb (IsGridFullyCollapsed Grid) && (k <? MaxIterations cfg)) eqn:Hcond.
    2:{ intros [= <-]. simpl. repeat split; (lia || done). }
    apply andb_true_iff in Hcond as [_ Hcap]. apply Z.ltb_lt in Hcap.
    destruct (FindCellWithLowestEntropy Grid =? -1) eqn:Hfind.
    { intros [= <-]. simpl. repeat split; (lia || done). }
    apply Z.eqb_neq in Hfind.
    destruct (FindCellWithLowestEntropy_found Grid Hfind) as (Cell & Hin & Hl & Hnc & Hpos).
    rewrite (CollapseCell_at _ _ _ Cell) by (done || lia). rewrite Hnc. simpl.
    replace (Num (PossibleStates Cell) =? 0) with false
      by (symmetry; apply Z.eqb_neq; lia).
    intros Hrun. apply bind_Ret in Hrun as (collapsed & Hc & Hrun).
    apply bind_Ret in Hc as (ChosenState & _ & Hc). inversion Hc; subst collapsed.
    clear Hc. simpl in Hrun.
    apply bind_Ret in Hrun as (Grid2 & Hp & Hrun).
    pose proof (uncollapsed_collapse Grid _ Cell ChosenState Hl Hnc) as Hone.
    assert (Hs : grid_shrinks
              (<[Z.to_nat (FindCellWithLowestEntropy Grid) := collapsed_to ChosenState]> Grid)
              Grid2).
    { eapply (PropagateConstraints_preserves cfg (grid_shrinks _)); [| | exact Hp].
      - intros *. apply grid_shrinks_update.
      - apply grid_shrinks_refl. }
    apply grid_shrinks_uncollapsed in Hs.
    pose proof (wrap32_range (wrap32 (GridWidth cfg * GridHeight cfg) * 10)) as Hmax.
    fold (MaxIterations cfg) in Hmax.
    rewrite wrap32_id in Hrun by lia.
    apply IH in Hrun as (H1 & H2 & _); [| lia]. repeat split; [lia | lia | intros; lia].
Qed.

End SolveProgress.

Lemma ValidateEdgeRules_quiet (cfg : Config) :
  (ValidateEdgeRules cfg).1 = true → (ValidateEdgeRules cfg).2 = [].
Proof.
  intros Hvalid. apply ValidateEdgeRules_true in Hvalid as (Hne & Hmiss & Hasym).
  destruct (ValidateEdgeRules cfg).2 as [| line rest] eqn:Hlog; [done |].
  pose proof (ValidateEdgeRules_log_justified cfg line) as Hline.
  rewrite Hlog in Hline. specialize (Hline ltac:(by left)).
  destruct line; simpl in Hline; try done.
  - destruct Hline as [_ Hm]. by destruct (Hmiss _ _ Hm).
  - destruct Hline as [Ha _]. by destruct (Hasym _ _ Ha).
Qed.

(** The run of [GenerateGrid] when the safety limit cannot wrap around. *)
Lemma generation_completes_run {R : Type} `{RandomSource R} (cfg : Config) :
  RandRange_in_range R →
  0 < GridWidth cfg → 0 < GridHeight cfg →
  GridWidth cfg * GridHeight cfg * 10 ≤ INT32_MAX →
  Num (TileTypes cfg) < INT32_MAX →
  (ValidateEdgeRules cfg).1 = true →
  ∀ w : World R, ∃ N : nat, ∀ fuel : nat, (N ≤ fuel)%nat →
    ∃ (w' : World R) (iterations : Z),
      GenerateGrid cfg fuel w = Ret (w', iterations) ∧
      IsGridFullyCollapsed (Grid w') = true ∧
      Num (Grid w') = GridWidth cfg * GridHeight cfg ∧
      1 ≤ iterations ≤ GridWidth cfg * GridHeight cfg ∧
      Log w' = Log w.
Proof.
  intros Hdraws Hw Hh Hcells Htiles Hvalid w.
  exists (Z.to_nat (GridWidth cfg * GridHeight cfg) * length (TileTypes cfg) + 1
          + Z.to_nat (MaxIterations cfg))%nat.
  intros fuel Hfuel. unfold INT32_MAX in Hcells.
  assert (Hne : TileTypes cfg ≠ []) by (by apply ValidateEdgeRules_true in Hvalid as []).
  assert (Hwrap : wrap32 (GridWidth cfg * GridHeight cfg) = GridWidth cfg * GridHeight cfg)
    by (apply wrap32_id; unfold INT32_MAX; nia).
  assert (Hcap : MaxIterations cfg = GridWidth cfg * GridHeight cfg * 10).
  { unfold MaxIterations. rewrite Hwrap. apply wrap32_id. unfold INT32_MAX. nia. }
  destruct (InitGrid cfg) as [Grid0 | |] eqn:Hinit.
  2,3: unfold InitGrid, SetNum in Hinit; rewrite Hwrap in Hinit;
       replace (GridWidth cfg * GridHeight cfg <? 0) with false in Hinit
         by (symmetry; apply Z.ltb_ge; nia);
       discriminate.
  pose proof (InitGrid_live cfg Grid0 Hne Hinit) as Hlive.
  apply InitGrid_Ret in Hinit as Hshape. destruct Hshape as [_ Hshape].
  rewrite Hwrap in Hshape.
  assert (Hlen0 : length Grid0 = Z.to_nat (GridWidth cfg * GridHeight cfg))
    by (by rewrite Hshape, length_replicate).
  assert (Hunc0 : uncollapsed Grid0 = Z.to_nat (GridWidth cfg * GridHeight cfg))
    by (by rewrite Hshape, uncollapsed_replicate).
  destruct (solve_loop_runs cfg Hdraws ltac:(lia) Htiles fuel Grid0 (Rand w) 0)
    as (Grid' & rng' & k' & Hrun & Hlen & Hkk & Hexit);
    [done | lia | rewrite Hlen0, Z.sub_0_r; lia |].
  destruct (solve_loop_progress cfg fuel Grid0 (Rand w) 0 _ ltac:(lia) Hrun)
    as (_ & Hprogress & Hsame). simpl in Hprogress, Hsame.
  assert (Hfull : IsGridFullyCollapsed Grid' = true).
  { destruct Hexit as [Hdone | Hcapped]; [done | nia]. }
  unfold GenerateGrid. rewrite Hvalid, Hinit. simpl. rewrite Hrun. simpl.
  eexists _, k'. split; [reflexivity |]. simpl.
  split; [done |]. split; [unfold Num; rewrite Hlen, Hlen0; nia |]. split.
  - split; [| nia].
    destruct (decide (k' = 0)) as [-> | Hpos]; [| lia].
    rewrite (Hsame eq_refl) in Hfull. apply uncollapsed_zero in Hfull. nia.
  - rewrite (ValidateEdgeRules_quiet cfg Hvalid). simpl.
    replace (MaxIterations cfg <=? k') with false by (symmetry; apply Z.leb_gt; nia).
    by rewrite app_nil_r.
Qed.

(** X7.  When [GridWidth * GridHeight * 10] does not overflow, the safety
    limit is never what stops [GenerateGrid]: for a validated configuration
    with positive width and height (fewer than [INT32_MAX] tiles, a
    generator that honours its bounds) it returns, for every large enough
    budget, a grid of [GridWidth * GridHeight] cells that is fully
    collapsed, after at least one and at most [GridWidth * GridHeight]
    turns of the loop, and writes nothing to the log. *)
Theorem generation_completes {R : Type} `{RandomSource R} (cfg : Config) :
  RandRange_in_range R →
  0 < GridWidth cfg → 0 < GridHeight cfg →
  GridWidth cfg * GridHeight cfg * 10 ≤ INT32_MAX →
  Num (TileTypes cfg) < INT32_MAX →
  (ValidateEdgeRules cfg).1 = true →
  ∀ w : World R, ∃ N : nat, ∀ fuel : nat, (N ≤ fuel)%nat →
    ∃ (w' : World R) (iterations : Z),
      GenerateGrid cfg fuel w = Ret (w', iterations) ∧
      IsGridFullyCollapsed (Grid w') = true ∧
      Num (Grid w') = GridWidth cfg * GridHeight cfg ∧
      1 ≤ iterations ≤ GridWidth cfg * GridHeight cfg ∧
      Log w' = Log w.
Proof. apply generation_completes_run. Qed.

Lemma generation_completes_witness :
  ∃ N : nat, ∀ fuel : nat, (N ≤ fuel)%nat →
    ∃ (w' : World Z) (iterations : Z),
      GenerateGrid checkerboard fuel (fresh_world 0) = Ret (w', iterations) ∧
      IsGridFullyCollapsed (Grid w') = true ∧
      Num (Grid w') = GridWidth checkerboard * GridHeight checkerboard ∧
      1 ≤ iterations ≤ GridWidth checkerboard * GridHeight checkerboard ∧
      Log w' = Log (fresh_world 0).
Proof.
  apply (generation_completes checkerboard).
  - intros rng Min Max Hle. unfold RandRange, counter_random. simpl.
    pose proof (Z.mod_pos_bound rng (Max - Min + 1)). lia.
  - reflexivity.
  - reflexivity.
  - discriminate.
  - reflexivity.
  - reflexivity.
Defined.

(** X14.  A validated configuration whose [GridWidth * GridHeight] is 0
    gets an empty grid: the loop is not entered and no number is drawn, yet
    the test after the loop ([0 >= 0]) writes the max-iterations warning. *)
Theorem zero_area_grid {R : Type} `{RandomSource R} (cfg : Config)
    (fuel : nat) (w : World R) :
  (ValidateEdgeRules cfg).1 = true →
  GridWidth cfg * GridHeight cfg = 0 →
  GenerateGrid cfg fuel w =
    Ret ({| Grid := []; Rand := Rand w;
            Log := Log w ++ [MaxIterationsReached 0] |}, 0).
Proof.
  intros Hvalid Harea. unfold GenerateGrid, InitGrid, MaxIterations.
  rewrite Hvalid, (ValidateEdgeRules_quiet cfg Hvalid), Harea. simpl.
  by destruct fuel.
Qed.

Lemma zero_area_grid_witness :
  GenerateGrid zero_width 3 (fresh_world 2) =
    Ret ({| Grid := []; Rand := Rand (fresh_world 2);
            Log := Log (fresh_world 2) ++ [MaxIterationsReached 0] |}, 0).
Proof.
  apply (zero_area_grid zero_width 3 (fresh_world 2)).
  - reflexivity.
  - reflexivity.
Defined.

(** ** The cells of a generated grid *)

Lemma all_states_NoDup (n : nat) : NoDup (all_states n).
Proof.
  unfold all_states. apply NoDup_fmap_2; [| apply NoDup_seq].
  intros a b Hab. lia.
Qed.

(** X13.  In the grid that [GenerateGrid] leaves after a successful
    validation no cell is without candidates, collapsed or not: the
    candidates of every cell are a selection, in increasing order and
    without repetition, of the tile indices [0 .. TileTypes.Num() - 1]. *)
Theorem generated_cells_keep_candidates {R : Type} `{RandomSource R}
    (cfg : Config) (fuel : nat) (w w' : World R) (iterations : Z) :
  (ValidateEdgeRules cfg).1 = true →
  GenerateGrid cfg fuel w = Ret (w', iterations) →
  ∀ (i : nat) Cell, Grid w' !! i = Some Cell →
    PossibleStates Cell ≠ [] ∧
    PossibleStates Cell `sublist_of` all_states (length (TileTypes cfg)) ∧
    NoDup (PossibleStates Cell).
Proof.
  intros Hvalid. unfold GenerateGrid. rewrite Hvalid. simpl.
  intros Hrun. apply bind_Ret in Hrun as (Grid0 & Hinit & Hrun).
  apply bind_Ret in Hrun as (res & Hsolve & Hret).
  inversion Hret; subst; simpl. clear Hret.
  assert (Hne : TileTypes cfg ≠ []) by (by apply ValidateEdgeRules_true in Hvalid as []).
  assert (Hlive : grid_live (Num (TileTypes cfg)) res.1.1).
  { eapply (solve_loop_preserves cfg (grid_live (Num (TileTypes cfg))));
      [| | | exact Hsolve].
    - intros *. apply UpdateCellPossibilities_live.
    - intros *. apply CollapseCell_live.
    - by apply InitGrid_live. }
  assert (Hs : grid_shrinks Grid0 res.1.1).
  { eapply (solve_loop_preserves cfg (grid_shrinks Grid0)); [| | | exact Hsolve].
    - intros *. apply grid_shrinks_update.
    - intros g rng i g' rng' Hg Hc. eapply grid_shrinks_trans; [exact Hg |].
      by eapply CollapseCell_shrinks.
    - apply grid_shrinks_refl. }
  intros i Cell Hi.
  unfold grid_live in Hlive. rewrite Forall_lookup in Hlive.
  destruct (Hlive i Cell Hi) as [_ Hnum].
  destruct (lookup_lt_is_Some_2 Grid0 i) as [Cell0 Hi0].
  { erewrite Forall2_length by exact Hs. by eapply lookup_lt_Some. }
  destruct (grid_shrinks_lookup _ _ _ _ _ Hs Hi0 Hi) as [Hsub _].
  apply InitGrid_Ret in Hinit as [_ ->].
  apply lookup_replicate in Hi0 as [-> _]. simpl in Hsub.
  split; [| split; [done |]].
  - intros Hnil. rewrite Hnil in Hnum. unfold Num in Hnum. simpl in Hnum. lia.
  - eapply sublist_NoDup; [apply all_states_NoDup | done].
Qed.

Lemma generated_cells_keep_candidates_witness :
  Grid (mkWorld checkerboard_0110 1 []) !! 1%nat = Some (collapsed_to 1) ∧
  PossibleStates (collapsed_to 1) ≠ [] ∧
  PossibleStates (collapsed_to 1)
    `sublist_of` all_states (length (TileTypes checkerboard)) ∧
  NoDup (PossibleStates (collapsed_to 1)).
Proof.
  split; [reflexivity |].
  apply (generated_cells_keep_candidates checkerboard 6 (fresh_world 0)
           (mkWorld checkerboard_0110 1 []) 1 ltac:(reflexivity) ltac:(reflexivity)
           1%nat (collapsed_to 1)).
  reflexivity.
Defined.

(** ** SpawnTileMeshes *)

Section SpawnFacts.
Variable cfg : Config.
Hypothesis width_nonzero : GridWidth cfg ≠ 0.

(** What the loop body does for one cell. *)
Lemma spawn_cell_cases (i : Z) (Cell : FCell) :
  (spawn_cell cfg i Cell = Ret [] ∧
   ¬ ∃ Tile TileMesh,
       bIsCollapsed Cell = true ∧ 0 ≤ FinalState Cell ∧
       TileTypes cfg !! Z.to_nat (FinalState Cell) = Some Tile ∧
       Mesh Tile = Some TileMesh)
  ∨
  (∃ p Tile,
     spawn_cell cfg i Cell = Ret [p] ∧
     bIsCollapsed Cell = true ∧ 0 ≤ FinalState Cell ∧
     TileTypes cfg !! Z.to_nat (FinalState Cell) = Some Tile ∧
     Mesh Tile = Some (PlacedMesh p) ∧
     IndexToXY cfg i = Ret (PlacedX p, PlacedY p)).
Proof.
  unfold spawn_cell, IndexToXY.
  replace (GridWidth cfg =? 0) with false by (symmetry; by apply Z.eqb_neq).
  destruct (bIsCollapsed Cell) eqn:Hc; simpl.
  2:{ left. split; [done |]. intros (? & ? & ? & _). done. }
  destruct (0 <=? FinalState Cell) eqn:Hlo; simpl.
  2:{ left. split; [done |]. intros (? & ? & _ & ? & _). apply Z.leb_gt in Hlo. lia. }
  apply Z.leb_le in Hlo.
  destruct (FinalState Cell <? Num (TileTypes cfg)) eqn:Hhi; simpl.
  2:{ left. split; [done |]. intros (T & ? & _ & _ & HT & _).
      apply Z.ltb_ge in Hhi. apply lookup_lt_Some in HT. unfold Num in Hhi. lia. }
  apply Z.ltb_lt in Hhi.
  destruct (at_index_in_range (TileTypes cfg) (FinalState Cell)) as (Tile & -> & HT);
    [lia |]. simpl.
  destruct (Mesh Tile) as [TileMesh |] eqn:Hm.
  - right. by eexists (mkPlacement _ _ TileMesh), Tile.
  - left. split; [done |]. intros (T & m & _ & _ & HT' & Hm'). congruence.
Qed.

Lemma spawn_scan_spec (cells : list FCell) (i0 : Z) :
  ∃ Placements,
    spawn_scan cfg i0 cells = Ret Placements ∧
    (length Placements ≤ length cells)%nat ∧
    ∀ p, p ∈ Placements ↔
      ∃ (k : nat) Cell Tile,
        cells !! k = Some Cell ∧ bIsCollapsed Cell = true ∧ 0 ≤ FinalState Cell ∧
        TileTypes cfg !! Z.to_nat (FinalState Cell) = Some Tile ∧
        Mesh Tile = Some (PlacedMesh p) ∧
        IndexToXY cfg (i0 + Z.of_nat k) = Ret (PlacedX p, PlacedY p).
Proof.
  revert i0. induction cells as [| c rest IH]; intros i0; simpl.
  - exists []. split; [done |]. split; [done |]. intros p. split.
    + intros Hp. by apply elem_of_nil in Hp.
    + intros (k & Cell & Tile & Hk & _). discriminate.
  - destruct (IH (i0 + 1)) as (later & -> & Hlen & Hmem).
    destruct (spawn_cell_cases i0 c)
      as [[-> Hnone] | (p0 & Tile0 & -> & Hc & Hlo & HT & Hm & Hxy)]; simpl.
    + exists later. split; [done |]. split; [lia |]. intros p. rewrite Hmem. split.
      * intros (k & Cell & Tile & Hk & Hrest). exists (S k), Cell, Tile.
        split; [done |]. by replace (i0 + Z.of_nat (S k)) with (i0 + 1 + Z.of_nat k) by lia.
      * intros (k & Cell & Tile & Hk & Hcc & Hl & HTT & Hmm & Hxy).
        destruct k as [| k]; simpl in Hk.
        -- inversion Hk; subst. destruct Hnone. by exists Tile, (PlacedMesh p).
        -- exists k, Cell, Tile. split; [done |].
           by replace (i0 + 1 + Z.of_nat k) with (i0 + Z.of_nat (S k)) by lia.
    + exists (p0 :: later). split; [done |]. split; [simpl; lia |]. intros p.
      rewrite elem_of_cons, Hmem. split.
      * intros [-> | (k & Cell & Tile & Hk & Hrest)].
        -- exists 0%nat, c, Tile0. by rewrite Z.add_0_r.
        -- exists (S k), Cell, Tile. split; [done |].
           by replace (i0 + Z.of_nat (S k)) with (i0 + 1 + Z.of_nat k) by lia.
      * intros (k & Cell & Tile & Hk & Hcc & Hl & HTT & Hmm & Hxy').
        destruct k as [| k]; simpl in Hk.
        -- inversion Hk; subst. left. rewrite Z.add_0_r in Hxy'.
           rewrite Hxy in Hxy'. rewrite HT in HTT. inversion HTT; subst.
           rewrite Hm in Hmm. destruct p, p0; simpl in *. congruence.
        -- right. exists k, Cell, Tile. split; [done |].
           by replace (i0 + 1 + Z.of_nat k) with (i0 + Z.of_nat (S k)) by lia.
Qed.

(** On a fully collapsed grid that satisfies the cell invariant, with a mesh
    on every tile, every cell produces its placement. *)
Lemma spawn_scan_all (cells : list FCell) (i0 : Z) :
  grid_ok (Num (TileTypes cfg)) cells →
  IsGridFullyCollapsed cells = true →
  Forall (λ Tile, is_Some (Mesh Tile)) (TileTypes cfg) →
  ∃ Placements,
    spawn_scan cfg i0 cells = Ret Placements ∧
    length Placements = length cells ∧
    ∀ (k : nat) Cell, cells !! k = Some Cell →
      ∃ p Tile,
        Placements !! k = Some p ∧
        TileTypes cfg !! Z.to_nat (FinalState Cell) = Some Tile ∧
        Mesh Tile = Some (PlacedMesh p) ∧
        IndexToXY cfg (i0 + Z.of_nat k) = Ret (PlacedX p, PlacedY p).
Proof.
  intros Hok Hfull Hmesh. revert i0 Hok Hfull.
  induction cells as [| c rest IH]; intros i0 Hok Hfull; simpl.
  - exists []. split; [done |]. split; [done |]. intros k Cell Hk. discriminate.
  - apply Forall_cons in Hok as [[_ Hc] Hok]. simpl in Hfull.
    destruct (bIsCollapsed c) eqn:Hcol; [| discriminate]. simpl in Hfull.
    destruct (Hc eq_refl) as [_ Hfinal].
    destruct (IH (i0 + 1) Hok Hfull) as (later & -> & Hlen & Hall).
    destruct (spawn_cell_cases i0 c)
      as [[_ Hnone] | (p0 & Tile0 & -> & _ & Hlo & HT & Hm & Hxy)]; simpl.
    + exfalso. apply Hnone.
      destruct (lookup_lt_is_Some_2 (TileTypes cfg) (Z.to_nat (FinalState c)))
        as [Tile HTile]; [unfold Num in Hfinal; lia |].
      rewrite Forall_lookup in Hmesh. destruct (Hmesh _ _ HTile) as [m Hm].
      exists Tile, m. repeat split; (done || lia).
    + exists (p0 :: later). split; [done |]. split; [simpl; lia |].
      intros [| k] Cell Hk; simpl in Hk.
      * inversion Hk; subst. exists p0, Tile0. by rewrite Z.add_0_r.
      * destruct (Hall k Cell Hk) as (p & Tile & Hp & HTT & Hmm & Hxy').
        exists p, Tile. split; [done |]. split; [done |]. split; [done |].
        by replace (i0 + Z.of_nat (S k)) with (i0 + 1 + Z.of_nat k) by lia.
Qed.

End SpawnFacts.

(** X10.  With a width that is not 0, [SpawnTileMeshes] returns normally.
    Without a world it places nothing.  With one, it places a mesh exactly
    for the cells that are collapsed, whose final state is an index of the
    catalog and whose tile has a mesh: the mesh is the tile's, the
    coordinates are those [IndexToXY] gives for the cell's index.  It never
    places more meshes than there are cells. *)
Theorem SpawnTileMeshes_spec (cfg : Config) (HasWorld : bool) (Grid : list FCell) :
  GridWidth cfg ≠ 0 →
  ∃ Placements,
    SpawnTileMeshes cfg HasWorld Grid = Ret Placements ∧
    (length Placements ≤ length Grid)%nat ∧
    (HasWorld = false → Placements = []) ∧
    (HasWorld = true →
     ∀ p, p ∈ Placements ↔
       ∃ (i : nat) Cell Tile,
         Grid !! i = Some Cell ∧ bIsCollapsed Cell = true ∧ 0 ≤ FinalState Cell ∧
         TileTypes cfg !! Z.to_nat (FinalState Cell) = Some Tile ∧
         Mesh Tile = Some (PlacedMesh p) ∧
         IndexToXY cfg (Z.of_nat i) = Ret (PlacedX p, PlacedY p)).
Proof.
  intros Hw. unfold SpawnTileMeshes. destruct HasWorld; simpl.
  - destruct (spawn_scan_spec cfg Hw Grid 0) as (ps & Hrun & Hlen & Hmem).
    exists ps. split; [done |]. split; [done |]. split; [discriminate |].
    intros _ p. rewrite Hmem. by setoid_rewrite Z.add_0_l.
  - exists []. split; [done |]. split; [simpl; lia |]. split; [done | discriminate].
Qed.

Lemma SpawnTileMeshes_spec_witness :
  ∃ Placements,
    SpawnTileMeshes checkerboard_meshes true checkerboard_seeded = Ret Placements ∧
    (length Placements ≤ length checkerboard_seeded)%nat ∧
    (true = false → Placements = []) ∧
    (true = true →
     ∀ p, p ∈ Placements ↔
       ∃ (i : nat) Cell Tile,
         checkerboard_seeded !! i = Some Cell ∧ bIsCollapsed Cell = true ∧
         0 ≤ FinalState Cell ∧
         TileTypes checkerboard_meshes !! Z.to_nat (FinalState Cell) = Some Tile ∧
         Mesh Tile = Some (PlacedMesh p) ∧
         IndexToXY checkerboard_meshes (Z.of_nat i) = Ret (PlacedX p, PlacedY p)).
Proof.
  apply (SpawnTileMeshes_spec checkerboard_meshes true checkerboard_seeded).
  discriminate.
Defined.

(** X15.  On a grid as [GenerateGrid] leaves it when it completes (fully
    collapsed, every final state a tile index, its only candidate), with a
    mesh on every tile of the catalog, [SpawnTileMeshes] places exactly one
    mesh per cell, in index order: the mesh of the cell's final tile at the
    cell's coordinates. *)
Theorem every_cell_gets_a_mesh (cfg : Config) (Grid : list FCell) :
  GridWidth cfg ≠ 0 →
  grid_ok (Num (TileTypes cfg)) Grid →
  IsGridFullyCollapsed Grid = true →
  Forall (λ Tile, is_Some (Mesh Tile)) (TileTypes cfg) →
  ∃ Placements,
    SpawnTileMeshes cfg true Grid = Ret Placements ∧
    length Placements = length Grid ∧
    ∀ (i : nat) Cell, Grid !! i = Some Cell →
      ∃ p Tile,
        Placements !! i = Some p ∧
        TileTypes cfg !! Z.to_nat (FinalState Cell) = Some Tile ∧
        Mesh Tile = Some (PlacedMesh p) ∧
        IndexToXY cfg (Z.of_nat i) = Ret (PlacedX p, PlacedY p).
Proof.
  intros Hw Hok Hfull Hmesh. unfold SpawnTileMeshes. simpl.
  destruct (spawn_scan_all cfg Hw Grid 0 Hok Hfull Hmesh) as (ps & Hrun & Hlen & Hall).
  exists ps. split; [done |]. split; [done |].
  intros i Cell Hi. destruct (Hall i Cell Hi) as (p & Tile & Hp & HT & Hm & Hxy).
  exists p, Tile. by rewrite Z.add_0_l in Hxy.
Qed.

Lemma every_cell_gets_a_mesh_witness :
  ∃ Placements,
    SpawnTileMeshes checkerboard_meshes true checkerboard_0110 = Ret Placements ∧
    length Placements = length checkerboard_0110 ∧
    ∀ (i : nat) Cell, checkerboard_0110 !! i = Some Cell →
      ∃ p Tile,
        Placements !! i = Some p ∧
        TileTypes checkerboard_meshes !! Z.to_nat (FinalState Cell) = Some Tile ∧
        Mesh Tile = Some (PlacedMesh p) ∧
        IndexToXY checkerboard_meshes (Z.of_nat i) = Ret (PlacedX p, PlacedY p).
Proof.
  apply (every_cell_gets_a_mesh checkerboard_meshes checkerboard_0110).
  - discriminate.
  - repeat (apply Forall_cons; split; [apply collapsed_to_ok; split; [discriminate | reflexivity] |]).
    apply Forall_nil_2.
  - reflexivity.
  - repeat (apply Forall_cons; split; [by eexists |]). apply Forall_nil_2.
Defined.

Example spawn_checkerboard :
  SpawnTileMeshes checkerboard_meshes true checkerboard_0110
    = Ret [mkPlacement 0 0 7; mkPlacement 1 0 8; mkPlacement 0 1 8; mkPlacement 1 1 7].
Proof. reflexivity. Qed.

(** ** A catalog of one tile *)

Lemma GenerateGrid_ok {R : Type} `{RandomSource R} (cfg : Config) (fuel : nat)
    (w w' : World R) (iterations : Z) :
  (ValidateEdgeRules cfg).1 = true →
  GenerateGrid cfg fuel w = Ret (w', iterations) →
  grid_ok (Num (TileTypes cfg)) (Grid w').
Proof.
  intros Hvalid. unfold GenerateGrid. rewrite Hvalid. simpl.
  intros Hrun. apply bind_Ret in Hrun as (Grid0 & Hinit & Hrun).
  apply bind_Ret in Hrun as (res & Hsolve & Hret).
  inversion Hret; subst; simpl.
  eapply (solve_loop_preserves cfg (grid_ok (Num (TileTypes cfg))));
    [| | | exact Hsolve].
  - intros *. apply UpdateCellPossibilities_ok.
  - intros *. apply CollapseCell_ok.
  - by apply InitGrid_ok.
Qed.

(** X16.  With a single tile in the catalog (and the conditions under which
    the run completes) [GenerateGrid] leaves that tile in every cell: each
    of the [GridWidth * GridHeight] cells is collapsed with final state 0. *)
Theorem single_tile_everywhere {R : Type} `{RandomSource R} (cfg : Config) :
  RandRange_in_range R →
  0 < GridWidth cfg → 0 < GridHeight cfg →
  GridWidth cfg * GridHeight cfg * 10 ≤ INT32_MAX →
  Num (TileTypes cfg) = 1 →
  (ValidateEdgeRules cfg).1 = true →
  ∀ w : World R, ∃ N : nat, ∀ fuel : nat, (N ≤ fuel)%nat →
    ∃ (w' : World R) (iterations : Z),
      GenerateGrid cfg fuel w = Ret (w', iterations) ∧
      Grid w' = replicate (Z.to_nat (GridWidth cfg * GridHeight cfg)) (collapsed_to 0).
Proof.
  intros Hdraws Hw Hh Hcells Hone Hvalid w.
  destruct (generation_completes_run cfg Hdraws Hw Hh Hcells ltac:(rewrite Hone; reflexivity)
              Hvalid w) as [N HN].
  exists N. intros fuel Hfuel.
  destruct (HN fuel Hfuel) as (w' & k & Hrun & Hfull & Hnum & _).
  exists w', k. split; [done |].
  pose proof (GenerateGrid_ok cfg fuel w w' k Hvalid Hrun) as Hok.
  apply IsGridFullyCollapsed_true in Hfull.
  apply list_eq. intros i.
  destruct (Grid w' !! i) as [Cell |] eqn:HCell.
  2:{ symmetry. apply lookup_replicate_None. apply lookup_ge_None in HCell.
      unfold Num in Hnum. lia. }
  rewrite lookup_replicate_2
    by (apply lookup_lt_Some in HCell; unfold Num in Hnum; lia).
  f_equal.
  rewrite Forall_lookup in Hfull. specialize (Hfull _ _ HCell). simpl in Hfull.
  unfold grid_ok in Hok. rewrite Forall_lookup in Hok.
  destruct (Hok _ _ HCell) as [_ Hcol]. destruct (Hcol Hfull) as [Hstates Hfinal].
  rewrite Hone in Hfinal. assert (FinalState Cell = 0) as Hzero by lia.
  destruct Cell as [states flag final]. simpl in *. subst. done.
Qed.

Lemma single_tile_everywhere_witness :
  ∃ N : nat, ∀ fuel : nat, (N ≤ fuel)%nat →
    ∃ (w' : World Z) (iterations : Z),
      GenerateGrid (single_tile 3 2) fuel (fresh_world 0) = Ret (w', iterations) ∧
      Grid w' = replicate (Z.to_nat (GridWidth (single_tile 3 2)
                                     * GridHeight (single_tile 3 2)))
                  (collapsed_to 0).
Proof.
  apply (single_tile_everywhere (single_tile 3 2)).
  - intros rng Min Max Hle. unfold RandRange, counter_random. simpl.
    pose proof (Z.mod_pos_bound rng (Max - Min + 1)). lia.
  - reflexivity.
  - reflexivity.
  - discriminate.
  - reflexivity.
  - reflexivity.
Defined.
